(** * Offshore wind transmission network design: model builder

    A shallow embedding of the optimisation-model builder of
    [optimise_combined.py] and of the support-structure cost helpers of
    [scripts/wt_cost.py], with the properties the specification states
    about them.

    Conventions of the embedding.
    - Python floats are read as exact numbers: rationals [Q] wherever the
      code only adds, multiplies, divides, compares, rounds or takes a
      ceiling (so the definitions evaluate), and reals [R] for the
      great-circle distance, which needs sine, cosine, arcsine and square
      root.  The one exception is the module [Binary64]: the number of
      parallel cables is a ceiling of a quotient, which depends on the last
      bit of that quotient, so there the quotient is computed in binary64
      as the machine computes it.
    - A Python exception is a value [Raise e] of the [result] type.
    - Dictionaries are finite maps ([gmap]); a lookup [d[k]] of a missing
      key raises [KeyError], [d.get(k, 0)] is [default 0 (d !! k)].
    - The external solver is a parameter of the stage loop. *)

From Stdlib Require Import ZArith QArith Qabs Qround Qminmax Reals Psatz.
From Stdlib Require Import String List.
From Stdlib Require Floats.
From stdpp Require Import gmap strings.

(** ** Exceptions *)

Inductive exn : Set :=
| UnboundLocalError
| ZeroDivisionError
| KeyError.

Inductive result (A : Type) : Type :=
| Ok (a : A)
| Raise (e : exn).

Arguments Ok {A} a.
Arguments Raise {A} e.

#[global] Instance result_bind : MBind result :=
  fun A B (k : A -> result B) (r : result A) =>
    match r with
    | Ok a => k a
    | Raise e => Raise e
    end.

Definition is_ok {A : Type} (r : result A) : Prop :=
  match r with
  | Ok _ => True
  | Raise _ => False
  end.

(** [returns r P]: the call returned normally with a value satisfying [P]. *)
Definition returns {A : Type} (r : result A) (P : A -> Prop) : Prop :=
  match r with
  | Ok a => P a
  | Raise _ => False
  end.

(** [returns2 r1 r2 P]: both calls returned normally, with values related
    by [P]. *)
Definition returns2 {A B : Type} (r1 : result A) (r2 : result B)
  (P : A -> B -> Prop) : Prop :=
  returns r1 (fun a => returns r2 (fun b => P a b)).

(** ** Numeric helpers of the Python runtime *)

#[global] Instance Qle_decision (x y : Q) : Decision (x <= y)%Q.
Proof.
  destruct (Qlt_le_dec y x) as [H | H]; [right | left];
    [now apply Qlt_not_le | exact H].
Defined.

#[global] Instance Qlt_decision (x y : Q) : Decision (x < y)%Q.
Proof.
  destruct (Qlt_le_dec x y) as [H | H]; [left | right];
    [exact H | now apply Qle_not_lt].
Defined.

(** Float division; a zero divisor raises. *)
Definition py_div (x y : Q) : result Q :=
  if Qeq_bool y 0 then Raise ZeroDivisionError else Ok (x / y)%Q.

(** [np.ceil] of an exact number: the least whole number not below it.
    [np.ceil] itself does not round; what rounds is the quotient it is
    applied to, which [Binary64] computes as the machine does. *)
Definition np_ceil (x : Q) : Q := inject_Z (Qceiling x).

(** Built-in [round(x)] to an integer: round half to even. *)
Definition py_round (x : Q) : Z :=
  let f := Qfloor x in
  match Qcompare (x - inject_Z f) (1 # 2) with
  | Lt => f
  | Gt => (f + 1)%Z
  | Eq => if Z.even f then f else (f + 1)%Z
  end.

(** Built-in [round(x, 6)]. *)
Definition py_round6 (x : Q) : Q :=
  inject_Z (py_round (x * inject_Z 1000000)) / inject_Z 1000000.

(** ** CostModel (optimise_combined.py, lines 49-267) *)

Module CostModel.
Local Open Scope Q_scope.
Local Open Scope string_scope.

(** The four present-value weights of one reference year. *)
Record discounting : Set := {
  df_equip : Q;
  df_inst : Q;
  df_ope : Q;
  df_deco : Q
}.

Definition discounting_pos (d : discounting) : Prop :=
  0 < df_equip d /\ 0 < df_inst d /\ 0 < df_ope d /\ 0 < df_deco d.

Section Costs.

(** The discount schedule: the weights applied for a given reference year. *)
Variable discount : Z -> discounting.

(** Modelled from the spec: [present_value_single] is imported from
    scripts/present_value.py, which is not among the sources.  Section 4.2:
    "discounted lifecycle cost (equipment + installation + yearly operating
    + decommissioning, each present-valued to a reference year)".  Each of
    the four components is weighted by its present-value factor for the
    reference year and the four are summed; the factors themselves are left
    to [discount]. *)
Definition present_value_single
  (first_year : Z) (equip_cost inst_cost ope_cost_yearly deco_cost : Q) : Q :=
  let d := discount first_year in
  df_equip d * equip_cost + df_inst d * inst_cost
  + df_ope d * ope_cost_yearly + df_deco d * deco_cost.

Section EnergyHub.

(** [check_supp], [equip_cost_lin] and [inst_deco_cost_lin] are imported
    from scripts/eh_cost.py, which is not among the sources: they are
    parameters of [eh_cost_lin], and so is the type of what [check_supp]
    returns.  What a property needs of them is stated with the property. *)
Variable structure : Type.
Variable check_supp : Q -> structure.
Variable equip_cost_lin : Q -> structure -> Z -> Q -> Q -> Q * Q.
Variable inst_deco_cost_lin : structure -> Q -> string -> Q.

Definition eh_cost_lin
  (first_year : Z) (water_depth : Q) (ice_cover : Z)
  (port_distance eh_capacity eh_active : Q) : Q :=
  let supp_structure := check_supp water_depth in
  let '(conv_cost, equip_cost) :=
    equip_cost_lin water_depth supp_structure ice_cover eh_capacity eh_active in
  let inst_cost :=
    eh_active * inst_deco_cost_lin supp_structure port_distance "inst" in
  let deco_cost :=
    eh_active * inst_deco_cost_lin supp_structure port_distance "deco" in
  let ope_cost_yearly := 0.03 * conv_cost in
  present_value_single first_year equip_cost inst_cost ope_cost_yearly deco_cost.

End EnergyHub.

Definition onss_cost_lin (first_year : Z) (capacity threshold : Q) : Q :=
  let threshold_equip_cost := 0.02287 in
  let equip_cost := (capacity - threshold) * threshold_equip_cost in
  let ope_cost_yearly := 0.015 * equip_cost in
  let inst_cost := 0 in
  let deco_cost := 0 in
  present_value_single first_year equip_cost inst_cost ope_cost_yearly deco_cost.

Definition ec1_cost_fun
  (first_year : Z) (distance capacity : Q) (function : string) : result Q :=
  let cable_length := 1.10 * distance in
  let cable_capacity := 348 in
  let cable_equip_cost := 0.860 in
  let cable_inst_cost := 0.540 in
  let capacity_factor := 0.95 in
  parallel_cables ←
    (if String.eqb function "lin" then
       Ok (capacity / (cable_capacity * capacity_factor))
     else if String.eqb function "ceil" then
       Ok (np_ceil (capacity / (cable_capacity * capacity_factor)))
     else Raise UnboundLocalError);
  let equip_cost := parallel_cables * cable_length * cable_equip_cost in
  let inst_cost := parallel_cables * cable_length * cable_inst_cost in
  let ope_cost_yearly := 0.2 * 1e-2 * equip_cost in
  let deco_cost := 0.5 * inst_cost in
  Ok (present_value_single first_year equip_cost inst_cost ope_cost_yearly deco_cost).

Definition ec2_cost_fun
  (first_year : Z) (distance capacity : Q) (function : string) : result Q :=
  let cable_length := 1.10 * distance + 2 in
  let cable_capacity := 348 in
  let cable_equip_cost := 0.860 in
  let cable_inst_cost := 0.540 in
  let capacity_factor := 0.95 in
  parallel_cables ←
    (if String.eqb function "lin" then
       Ok (capacity / (cable_capacity * capacity_factor))
     else if String.eqb function "ceil" then
       Ok (np_ceil (capacity / (cable_capacity * capacity_factor)))
     else Raise UnboundLocalError);
  let equip_cost := parallel_cables * cable_length * cable_equip_cost in
  let inst_cost := parallel_cables * cable_length * cable_inst_cost in
  let ope_cost_yearly := 0.2 * 1e-2 * equip_cost in
  let deco_cost := 0.5 * inst_cost in
  Ok (present_value_single first_year equip_cost inst_cost ope_cost_yearly deco_cost).

Definition ec3_cost_fun
  (first_year : Z) (distance capacity : Q) (function : string) : result Q :=
  let cable_length := 1.10 * distance + 2 in
  let cable_capacity := 348 in
  let cable_equip_cost := 0.860 in
  let cable_inst_cost := 0.540 in
  let capacity_factor := 0.95 in
  parallel_cables ←
    (if String.eqb function "lin" then
       Ok (capacity / (cable_capacity * capacity_factor))
     else if String.eqb function "ceil" then
       Ok (np_ceil (capacity / (cable_capacity * capacity_factor)))
     else Raise UnboundLocalError);
  let equip_cost := parallel_cables * cable_length * cable_equip_cost in
  let inst_cost := parallel_cables * cable_length * cable_inst_cost in
  let ope_cost_yearly := 0.2 * 1e-2 * equip_cost in
  let deco_cost := 0.5 * inst_cost in
  Ok (present_value_single first_year equip_cost inst_cost ope_cost_yearly deco_cost).

Definition onc_cost_fun
  (first_year : Z) (distance capacity : Q) (function : string) : result Q :=
  let cable_length := 1.10 * distance in
  let cable_capacity := 348 in
  let cable_equip_cost := 0.860 in
  let cable_inst_cost := 0.540 * 0.5 in
  let capacity_factor := 0.95 in
  parallel_cables ←
    (if String.eqb function "lin" then
       Ok (capacity / (cable_capacity * capacity_factor))
     else if String.eqb function "ceil" then
       Ok (np_ceil (capacity / (cable_capacity * capacity_factor)))
     else Raise UnboundLocalError);
  let equip_cost := parallel_cables * cable_length * cable_equip_cost in
  let inst_cost := parallel_cables * cable_length * cable_inst_cost in
  let ope_cost_yearly := 0.2 * 1e-2 * equip_cost in
  let deco_cost := 0.5 * inst_cost in
  Ok (present_value_single first_year equip_cost inst_cost ope_cost_yearly deco_cost).

(** [value(wf_cost) * (wf_cap / wf_total_cap)]; the division raises on a
    zero rated capacity. *)
Definition wf_cost_lin (wf_cost wf_total_cap wf_cap : Q) : result Q :=
  ratio ← py_div wf_cap wf_total_cap;
  Ok (wf_cost * ratio).

(** *** Vocabulary of the cost claims *)

(** Cost of [n] parallel cables of length [len] (km) with the given
    per-km equipment and installation rates: yearly operation is 0.2% of
    the equipment cost, decommissioning half the installation cost. *)
Definition cable_lifecycle_cost
  (first_year : Z) (n len equip_rate inst_rate : Q) : Q :=
  present_value_single first_year
    (n * len * equip_rate) (n * len * inst_rate)
    (0.2 * 1e-2 * (n * len * equip_rate)) (0.5 * (n * len * inst_rate)).

End Costs.

Arguments eh_cost_lin discount {structure}.

(** The continuous cable count, and its ceiling. *)
Definition cables_lin (capacity : Q) : Q := capacity / (348 * 0.95).
Definition cables_ceil (capacity : Q) : Q :=
  inject_Z (Qceiling (capacity / (348 * 0.95))).

Definition valid_mode (function : string) : Prop :=
  function = "lin" \/ function = "ceil".

(** What the claims ask of a cost: non-negative, and zero at zero capacity. *)
Definition sound_cost (capacity : Q) (r : result Q) : Prop :=
  returns r (fun c => 0 <= c /\ (capacity == 0 -> c == 0)).


(** The schedule that leaves every component undiscounted. *)
Definition undiscounted (_ : Z) : discounting :=
  {| df_equip := 1; df_inst := 1; df_ope := 1; df_deco := 1 |}.

(** Present value of one kilometre of one cable at the given rates. *)
Definition cable_km_cost (discount : Z -> discounting) (first_year : Z)
  (equip_rate inst_rate : Q) : Q :=
  cable_lifecycle_cost discount first_year 1 1 equip_rate inst_rate.

End CostModel.

(** ** The export-cable cost functions with the cable count in binary64
    (optimise_combined.py, lines 107-219) *)

Module Binary64.
Import PrimFloat SpecFloat FloatOps.
Import CostModel.
Local Open Scope Q_scope.
Local Open Scope string_scope.
#[local] Set Warnings "-inexact-float".

(** The number a finite binary64 value stands for: sign, mantissa and
    exponent read exactly.  Zero stands for 0; infinities and NaN stand
    for no number and are given 0, so what is stated of a value is stated
    of finite capacities only. *)
Definition value (x : float) : Q :=
  match Prim2SF x with
  | S754_finite s m e =>
      (if s then - inject_Z (Zpos m) else inject_Z (Zpos m)) * 2 ^ e
  | _ => 0
  end.

Section Costs.

Variable discount : Z -> discounting.

(** [capacity], the product [cable_capacity * capacity_factor] and the
    quotient are binary64 numbers; [np.ceil] of the quotient is a whole
    number, and from the cable count on the arithmetic is read exactly,
    as in [CostModel]. *)
Definition ec1_cost_fun
  (first_year : Z) (distance : Q) (capacity : float) (function : string)
  : result Q :=
  let cable_length := 1.10 * distance in
  let cable_capacity := 348%float in
  let cable_equip_cost := 0.860 in
  let cable_inst_cost := 0.540 in
  let capacity_factor := 0.95%float in
  parallel_cables ←
    (if String.eqb function "lin" then
       Ok (value (capacity / (cable_capacity * capacity_factor)))
     else if String.eqb function "ceil" then
       Ok (np_ceil (value (capacity / (cable_capacity * capacity_factor))))
     else Raise UnboundLocalError);
  let equip_cost := parallel_cables * cable_length * cable_equip_cost in
  let inst_cost := parallel_cables * cable_length * cable_inst_cost in
  let ope_cost_yearly := 0.2 * 1e-2 * equip_cost in
  let deco_cost := 0.5 * inst_cost in
  Ok (present_value_single discount first_year
        equip_cost inst_cost ope_cost_yearly deco_cost).

Definition ec2_cost_fun
  (first_year : Z) (distance : Q) (capacity : float) (function : string)
  : result Q :=
  let cable_length := 1.10 * distance + 2 in
  let cable_capacity := 348%float in
  let cable_equip_cost := 0.860 in
  let cable_inst_cost := 0.540 in
  let capacity_factor := 0.95%float in
  parallel_cables ←
    (if String.eqb function "lin" then
       Ok (value (capacity / (cable_capacity * capacity_factor)))
     else if String.eqb function "ceil" then
       Ok (np_ceil (value (capacity / (cable_capacity * capacity_factor))))
     else Raise UnboundLocalError);
  let equip_cost := parallel_cables * cable_length * cable_equip_cost in
  let inst_cost := parallel_cables * cable_length * cable_inst_cost in
  let ope_cost_yearly := 0.2 * 1e-2 * equip_cost in
  let deco_cost := 0.5 * inst_cost in
  Ok (present_value_single discount first_year
        equip_cost inst_cost ope_cost_yearly deco_cost).

Definition ec3_cost_fun
  (first_year : Z) (distance : Q) (capacity : float) (function : string)
  : result Q :=
  let cable_length := 1.10 * distance + 2 in
  let cable_capacity := 348%float in
  let cable_equip_cost := 0.860 in
  let cable_inst_cost := 0.540 in
  let capacity_factor := 0.95%float in
  parallel_cables ←
    (if String.eqb function "lin" then
       Ok (value (capacity / (cable_capacity * capacity_factor)))
     else if String.eqb function "ceil" then
       Ok (np_ceil (value (capacity / (cable_capacity * capacity_factor))))
     else Raise UnboundLocalError);
  let equip_cost := parallel_cables * cable_length * cable_equip_cost in
  let inst_cost := parallel_cables * cable_length * cable_inst_cost in
  let ope_cost_yearly := 0.2 * 1e-2 * equip_cost in
  let deco_cost := 0.5 * inst_cost in
  Ok (present_value_single discount first_year
        equip_cost inst_cost ope_cost_yearly deco_cost).

End Costs.

(** The quotient [capacity / (348 * 0.95)] as the machine computes it. *)
Definition ratio (capacity : float) : Q := value (capacity / (348 * 0.95)).

End Binary64.

(** ** Support structures and equipment cost (scripts/wt_cost.py) *)

Module WtCost.
Local Open Scope Q_scope.

(** The three strings [check_supp] returns. *)
Inductive support : Set := monopile | jacket | floating.

(** Falling off the end of the [if]/[elif] chain returns [None]. *)
Definition check_supp (water_depth : Q) : option support :=
  if bool_decide (water_depth < 25) then Some monopile
  else if bool_decide (25 <= water_depth) && bool_decide (water_depth < 55)
  then Some jacket
  else if bool_decide (55 <= water_depth) then Some floating
  else None.

(** [support_structure] is what the caller got from [check_supp]; [None]
    is not a key of the coefficient dictionary.  A reference year other
    than 2030, 2040, 2050 leaves the dictionary unassigned. *)
Definition calc_equip_cost
  (first_year : Z) (water_depth : Q) (support_structure : option support)
  (ice_cover : Z) (turbine_capacity : Q) : result (Q * Q) :=
  '(support_structure_coeff, turbine_coeff) ←
    (if (first_year =? 2030)%Z then
       Ok (fun s => match s with
                    | monopile => (181, 552, 370)
                    | jacket => (103, -2043, 478)
                    | floating => (0, 697, 1223)
                    end, 1200 * 1e3)
     else if (first_year =? 2040)%Z then
       Ok (fun s => match s with
                    | monopile => (176, 536, 270)
                    | jacket => (100, -1986, 375)
                    | floating => (0, 678, 1034)
                    end, 1100 * 1e3)
     else if (first_year =? 2050)%Z then
       Ok (fun s => match s with
                    | monopile => (171, 521, 170)
                    | jacket => (97, -1930, 658)
                    | floating => (0, 658, 844)
                    end, 1000 * 1e3)
     else Raise UnboundLocalError);
  s ← match support_structure with
      | Some s => Ok s
      | None => Raise KeyError
      end;
  let '(c1, c2, c3) := (support_structure_coeff s : Q * Q * Q) in
  let supp_cost :=
    turbine_capacity * (c1 * (water_depth ^ 2) + c2 * water_depth + c3 * 1e3) in
  let turbine_coeff :=
    if (ice_cover =? 1)%Z then turbine_coeff * (1 + 0.4 * 0.5714)
    else turbine_coeff in
  let turbine_cost := turbine_capacity * turbine_coeff in
  let supp_cost := supp_cost * 1e-6 in
  let turbine_cost := turbine_cost * 1e-6 in
  Ok (supp_cost, turbine_cost).

(** The support cost in millions of euros that a row [(c1, c2, c3)] of a
    coefficient table gives at a water depth and turbine capacity. *)
Definition support_cost (row : Q * Q * Q) (water_depth turbine_capacity : Q)
  : Q :=
  let '(c1, c2, c3) := row in
  turbine_capacity * (c1 * water_depth ^ 2 + c2 * water_depth + c3 * 1000)
  / 1000000.

(** The vessel classes of the installation coefficient tables. *)
Inductive vessel : Set := PSIV | Tug | AHV.

(** Both coefficient dictionaries are built before one is chosen, so
    [40 / turbine_capacity] is evaluated for each of them whatever the
    support structure turns out to be.  A support structure of [None]
    takes neither branch and leaves [total_cost] unassigned. *)
Definition calc_inst_deco_cost
  (water_depth port_distance turbine_capacity : Q) (operation : string)
  : result Q :=
  let port_distance := port_distance * 1e-3 in
  psiv_inst ← py_div 40 turbine_capacity;
  let inst_coeff := fun v =>
    match v with
    | PSIV => (psiv_inst, 18.5, 24, 144, 200)
    | Tug => (1 / 3, 7.5, 5, 0, 2.5)
    | AHV => (7, 18.5, 30, 90, 40)
    end in
  psiv_deco ← py_div 40 turbine_capacity;
  let deco_coeff := fun v =>
    match v with
    | PSIV => (psiv_deco, 18.5, 24, 144, 200)
    | Tug => (1 / 3, 7.5, 5, 0, 2.5)
    | AHV => (7, 18.5, 30, 30, 40)
    end in
  let coeff := if String.eqb operation "inst" then inst_coeff else deco_coeff in
  let support_structure := check_supp water_depth in
  let vessel_cost := fun v =>
    let '(c1, c2, c3, c4, c5) := (coeff v : Q * Q * Q * Q * Q) in
    inv ← py_div 1 c1;
    legs ← py_div (2 * port_distance) c2;
    Ok ((inv * (legs + c3) + c4) * ((c5 * 1e3) / 24)) in
  total_cost ←
    match support_structure with
    | Some monopile | Some jacket => vessel_cost PSIV
    | Some floating =>
        tug ← vessel_cost Tug;
        ahv ← vessel_cost AHV;
        Ok (0 + tug + ahv)
    | None => Raise UnboundLocalError
    end;
  Ok (total_cost * 1e-6).

End WtCost.

(** ** NetworkModelBuilder: energy-hub constraints (opt_model, lines 432-436
    and 882-898) *)

Module Builder.
Local Open Scope Q_scope.

Definition zero_th : Q := 1e-3.
Definition wt_cap : Z := 15.
Definition eh_cap_lim : Q := 2500.

(** Variable domains. *)
Definition NonNegativeReals (x : Q) : Prop := 0 <= x.
Definition Binary (x : Q) : Prop := x == 0 \/ x == 1.

Section HubConstraints.

(** An assignment of the hub capacities and activation binaries. *)
Variables eh_cap_var eh_active_bin_var : Z -> Q.

Definition max_eh_cap_rule (eh : Z) : Prop :=
  eh_cap_var eh <= eh_cap_lim.

Definition eh_active_rule (eh : Z) : Prop :=
  eh_cap_var eh <= eh_active_bin_var eh * eh_cap_lim + zero_th.

(** [Var(model.viable_eh_ids, within=...)] and
    [Constraint(model.viable_eh_ids, rule=...)]: one instance per viable
    hub. *)
Definition hub_constraints (viable_eh_ids : gset Z) : Prop :=
  forall eh : Z, eh ∈ viable_eh_ids ->
    NonNegativeReals (eh_cap_var eh) /\
    Binary (eh_active_bin_var eh) /\
    max_eh_cap_rule eh /\
    eh_active_rule eh.

End HubConstraints.

(** [sum(...)] over a generator: additions from 0, left to right. *)
Definition py_sum (l : list Q) : Q := foldl Qplus 0 l.

(** The sets and parameters the allocation constraints read. *)
Record wind_data : Type := {
  viable_wf_ids : list Z;
  country_ids : list Z;
  wf_iso : Z -> Z;
  wf_cap : Z -> Q;
  country_cf : Z -> Q
}.

(** An assignment of the wind-farm capacities and their allocation to
    countries. *)
Record allocation : Type := {
  wf_cap_var : Z -> Q;
  wf_country_alloc_var : Z -> Z -> Q
}.

Section AllocationConstraints.

Variable model : wind_data.
Variable x : allocation.

(** The rule of [wf_country_cap_con]: with [cross_border == 1] a country
    may draw on every viable wind farm, with [cross_border == 0] only on
    its own. *)
Definition wf_country_cap_rule (cross_border country : Z) : Prop :=
  let min_req_cap_country :=
    country_cf model country
    * py_sum (wf_cap model
              <$> filter (fun wf => wf_iso model wf = country)
                    (viable_wf_ids model)) in
  if (cross_border =? 1)%Z then
    let cap_country :=
      py_sum ((fun wf => wf_country_alloc_var x wf country)
              <$> viable_wf_ids model) in
    min_req_cap_country <= cap_country
  else if (cross_border =? 0)%Z then
    let cap_country :=
      py_sum ((fun wf => wf_country_alloc_var x wf country)
              <$> filter (fun wf => wf_iso model wf = country)
                    (viable_wf_ids model)) in
    min_req_cap_country <= cap_country
  else True.

Definition wf_alloc_rule (wf : Z) : Prop :=
  py_sum (wf_country_alloc_var x wf <$> country_ids model) == wf_cap_var x wf.

Definition wf_cap_rule (wf : Z) : Prop :=
  wf_cap_var x wf <= wf_cap model wf.

(** The variable domains and the three constraint families on the
    wind-farm side of the model. *)
Definition allocation_constraints (cross_border : Z) : Prop :=
  (forall wf, wf ∈ viable_wf_ids model ->
     NonNegativeReals (wf_cap_var x wf) /\
     (forall country, country ∈ country_ids model ->
        NonNegativeReals (wf_country_alloc_var x wf country)) /\
     wf_alloc_rule wf /\ wf_cap_rule wf) /\
  (forall country, country ∈ country_ids model ->
     wf_country_cap_rule cross_border country).

End AllocationConstraints.

(** Two German wind farms of 100 MW and 80 MW, Germany requiring all of
    its capacity, the other countries none; and the assignment that
    builds both in full for Germany. *)
Definition two_farms : wind_data := {|
  viable_wf_ids := [1; 2]%Z;
  country_ids := [1; 2; 3; 4; 5; 6; 7; 8]%Z;
  wf_iso := fun _ => 1%Z;
  wf_cap := fun wf => if (wf =? 1)%Z then 100 else 80;
  country_cf := fun country => if (country =? 1)%Z then 1 else 0
|}.

Definition built_in_full : allocation := {|
  wf_cap_var := fun wf => if (wf =? 1)%Z then 100 else 80;
  wf_country_alloc_var := fun wf country =>
    if (country =? 1)%Z then (if (wf =? 1)%Z then 100 else 80) else 0
|}.

End Builder.

(** ** NetworkModelBuilder: routing constraints (opt_model, lines 670-684
    and 861-909) *)

Module Network.
Import Builder.
Local Open Scope Q_scope.

(** The sets and parameters the routing constraints read. *)
Record topology : Type := {
  viable_wf_ids : list Z;
  viable_eh_ids : list Z;
  viable_onss_ids : list Z;
  viable_ec1_ids : list (Z * Z);
  viable_ec2_ids : list (Z * Z);
  viable_ec3_ids : list (Z * Z);
  country_ids : list Z;
  eh_iso : Z -> Z;
  onss_iso : Z -> Z
}.

(** An assignment of the hub capacities, the three groups of connection
    capacities and the allocation of wind farms to countries. *)
Record flows : Type := {
  eh_cap_var : Z -> Q;
  ec1_cap_var : Z * Z -> Q;
  ec2_cap_var : Z * Z -> Q;
  ec3_cap_var : Z * Z -> Q;
  wf_country_alloc_var : Z -> Z -> Q
}.

Section RoutingConstraints.

Variable net : topology.
Variable x : flows.

Definition connect_to_eh (wf country : Z) : Q :=
  py_sum ((fun eh => ec1_cap_var x (wf, eh))
          <$> filter (fun eh => (wf, eh) ∈ viable_ec1_ids net
                                /\ eh_iso net eh = country)
                (viable_eh_ids net)).

Definition connect_to_onss (wf country : Z) : Q :=
  py_sum ((fun onss => ec3_cap_var x (wf, onss))
          <$> filter (fun onss => (wf, onss) ∈ viable_ec3_ids net
                                  /\ onss_iso net onss = country)
                (viable_onss_ids net)).

Definition wf_connection_rule (wf country : Z) : Prop :=
  wf_country_alloc_var x wf country
  <= connect_to_eh wf country + connect_to_onss wf country.

Definition connect_from_wf (eh : Z) : Q :=
  py_sum ((fun wf => ec1_cap_var x (wf, eh))
          <$> filter (fun wf => (wf, eh) ∈ viable_ec1_ids net)
                (viable_wf_ids net)).

Definition eh_cap_connect_rule (eh : Z) : Prop :=
  connect_from_wf eh <= eh_cap_var x eh.

Definition eh_connect_to_onss (eh : Z) : Q :=
  let country := eh_iso net eh in
  py_sum ((fun onss => ec2_cap_var x (eh, onss))
          <$> filter (fun onss => (eh, onss) ∈ viable_ec2_ids net
                                  /\ onss_iso net onss = country)
                (viable_onss_ids net)).

Definition eh_to_onss_connection_rule (eh : Z) : Prop :=
  eh_cap_var x eh <= eh_connect_to_onss eh.

(** The bounds [(0, 0)] of the variable group a topology leaves unused:
    the hub side for [model_type == 0], the direct links for
    [model_type == 1]. *)
Definition topology_bounds (model_type : Z) : Prop :=
  ((model_type =? 0)%Z = true ->
   (forall eh, eh ∈ viable_eh_ids net -> eh_cap_var x eh == 0) /\
   (forall i, i ∈ viable_ec1_ids net -> ec1_cap_var x i == 0) /\
   (forall i, i ∈ viable_ec2_ids net -> ec2_cap_var x i == 0)) /\
  ((model_type =? 1)%Z = true ->
   forall i, i ∈ viable_ec3_ids net -> ec3_cap_var x i == 0).

(** Domains, bounds and the three routing constraint families. *)
Definition routing_constraints (model_type : Z) : Prop :=
  topology_bounds model_type /\
  (forall wf country, wf ∈ viable_wf_ids net -> country ∈ country_ids net ->
     NonNegativeReals (wf_country_alloc_var x wf country) /\
     wf_connection_rule wf country) /\
  (forall i, i ∈ viable_ec1_ids net -> NonNegativeReals (ec1_cap_var x i)) /\
  (forall i, i ∈ viable_ec2_ids net -> NonNegativeReals (ec2_cap_var x i)) /\
  (forall i, i ∈ viable_ec3_ids net -> NonNegativeReals (ec3_cap_var x i)) /\
  (forall eh, eh ∈ viable_eh_ids net ->
     NonNegativeReals (eh_cap_var x eh) /\
     eh_cap_connect_rule eh /\ eh_to_onss_connection_rule eh).

End RoutingConstraints.

(** One German wind farm, one Danish hub within reach and one Danish
    substation, with 50 MW routed over the hub to Denmark. *)
Definition one_route : topology := {|
  viable_wf_ids := [1%Z];
  viable_eh_ids := [2%Z];
  viable_onss_ids := [3%Z];
  viable_ec1_ids := [(1, 2)%Z];
  viable_ec2_ids := [(2, 3)%Z];
  viable_ec3_ids := [(1, 3)%Z];
  country_ids := [1; 2]%Z;
  eh_iso := fun _ => 2%Z;
  onss_iso := fun _ => 2%Z
|}.

Definition over_the_hub : flows := {|
  eh_cap_var := fun _ => 50;
  ec1_cap_var := fun _ => 50;
  ec2_cap_var := fun _ => 50;
  ec3_cap_var := fun _ => 0;
  wf_country_alloc_var := fun _ country => if (country =? 2)%Z then 50 else 0
|}.

End Network.

(** ** ResultExtractor: wind-farm and substation costing (opt_model, lines
    992-1044 and 1084) *)

Module Extract.
Import Builder.
Local Open Scope Q_scope.

Definition sf_wf : Q := 1.

Definition rnd_f (e : Q) : Q := py_round6 e.

(** [int(np.ceil(value(cap) / wt_cap)) * wt_cap] *)
Definition nearest_wt_cap (cap : Q) : Z :=
  (Qceiling (cap / inject_Z wt_cap) * wt_cap)%Z.

(** The [wf_rate] and [wf_cost] fields of a wind-farm record in
    [save_results]: [wf_capacity] is the rounded solved capacity,
    [wf_cap_diff] its increment over the previous stage.  The two
    [if linear_result == ...] statements assign [wf_cost]; with any other
    flag it is still unassigned when the record is appended.  The
    single-stage comparison field [wf_cost_sf], assigned next to it, is
    left out. *)
Definition wf_record_cost
  (linear_result : Z) (wf_capacity wf_cap_diff wf_cap wf_cost : Q)
  : result (Q * Q) :=
  ratio ← py_div wf_capacity wf_cap;
  let wf_rate := rnd_f ratio in
  cost ←
    (if (linear_result =? 1)%Z then
       q ← py_div wf_cap_diff wf_cap;
       Ok (Some (sf_wf * rnd_f (q * wf_cost)))
     else Ok None);
  cost ←
    (if (linear_result =? 0)%Z then
       q ← py_div (inject_Z (nearest_wt_cap wf_cap_diff)) wf_cap;
       Ok (Some (sf_wf * rnd_f (q * wf_cost)))
     else Ok cost);
  match cost with
  | Some wf_cost => Ok (wf_rate, wf_cost)
  | None => Raise UnboundLocalError
  end.

Definition sf_onss : Q := 1.

(** The [onss_cost] field of a substation record in [save_results]:
    [sf_onss * rnd_f(max(0, onss_cost_lin(first_year, onss_cap_diff,
    onss_thold)))], where [onss_cap_diff] is the increment of the rounded
    capacity over the previous stage. *)
Definition onss_record_cost (discount : Z -> CostModel.discounting)
  (first_year : Z) (onss_cap_diff onss_thold : Q) : Q :=
  sf_onss
  * rnd_f (Qmax 0 (CostModel.onss_cost_lin discount first_year
                     onss_cap_diff onss_thold)).

End Extract.

(** ** GeoFeasibilityFilter (optimise_combined.py, lines 269-342 and
    651-660) *)

Module Geo.
Local Open Scope R_scope.

#[global] Instance Rle_decision (x y : R) : Decision (x <= y) := Rle_dec x y.

(** [np.radians] *)
Definition radians (deg : R) : R := deg * PI / 180.

Definition haversine (lon1 lat1 lon2 lat2 : R) : R :=
  let lon1 := radians lon1 in
  let lat1 := radians lat1 in
  let lon2 := radians lon2 in
  let lat2 := radians lat2 in
  let dlon := lon2 - lon1 in
  let dlat := lat2 - lat1 in
  let a := sin (dlat / 2) ^ 2 + cos lat1 * cos lat2 * sin (dlon / 2) ^ 2 in
  let c := 2 * asin (sqrt a) in
  let r := 6371 in
  c * r.

(** [d[k]] *)
Definition getitem {V : Type} (d : gmap Z V) (k : Z) : result V :=
  match d !! k with
  | Some v => Ok v
  | None => Raise KeyError
  end.

(** [d.keys()] *)
Definition keys {V : Type} (d : gmap Z V) : list Z := (map_to_list d).*1.

(** [for a, b in pairs: if test(a, b): connections.append((a, b))] *)
Fixpoint keep_pairs (test : Z -> Z -> result bool) (pairs : list (Z * Z))
  : result (list (Z * Z)) :=
  match pairs with
  | [] => Ok []
  | (a, b) :: rest =>
      viable ← test a b;
      connections ← keep_pairs test rest;
      Ok (if viable : bool then (a, b) :: connections else connections)
  end.

Definition find_viable_ec1 (wf_lon wf_lat eh_lon eh_lat : gmap Z R)
  : result (list (Z * Z)) :=
  keep_pairs
    (fun wf_id eh_id =>
       x1 ← getitem wf_lon wf_id;
       y1 ← getitem wf_lat wf_id;
       x2 ← getitem eh_lon eh_id;
       y2 ← getitem eh_lat eh_id;
       let distance := haversine x1 y1 x2 y2 in
       Ok (bool_decide (distance <= 250)))
    (cprod (keys wf_lon) (keys eh_lon)).

Definition find_viable_ec2 (eh_lon eh_lat onss_lon onss_lat : gmap Z R)
  : result (list (Z * Z)) :=
  keep_pairs
    (fun eh_id onss_id =>
       x1 ← getitem eh_lon eh_id;
       y1 ← getitem eh_lat eh_id;
       x2 ← getitem onss_lon onss_id;
       y2 ← getitem onss_lat onss_id;
       let distance := haversine x1 y1 x2 y2 in
       Ok (bool_decide (distance <= 250)))
    (cprod (keys eh_lon) (keys onss_lon)).

Definition find_viable_ec3 (wf_lon wf_lat onss_lon onss_lat : gmap Z R)
  : result (list (Z * Z)) :=
  keep_pairs
    (fun wf_id onss_id =>
       x1 ← getitem wf_lon wf_id;
       y1 ← getitem wf_lat wf_id;
       x2 ← getitem onss_lon onss_id;
       y2 ← getitem onss_lat onss_id;
       let distance := haversine x1 y1 x2 y2 in
       Ok (bool_decide (distance <= 500)))
    (cprod (keys wf_lon) (keys onss_lon)).

Definition find_viable_onc (onss_lon onss_lat : gmap Z R)
  : result (list (Z * Z)) :=
  keep_pairs
    (fun onss_id1 onss_id2 =>
       if bool_decide (onss_id1 ≠ onss_id2) then
         x1 ← getitem onss_lon onss_id1;
         y1 ← getitem onss_lat onss_id1;
         x2 ← getitem onss_lon onss_id2;
         y2 ← getitem onss_lat onss_id2;
         let distance := haversine x1 y1 x2 y2 in
         Ok (bool_decide (distance <= 250))
       else Ok false)
    (cprod (keys onss_lon) (keys onss_lon)).

(** The entity dictionaries [opt_model] fills from the three datasets. *)
Record datasets : Type := {
  wf_iso : gmap Z Z;
  wf_lon : gmap Z R;
  wf_lat : gmap Z R;
  eh_iso : gmap Z Z;
  eh_lon : gmap Z R;
  eh_lat : gmap Z R;
  onss_iso : gmap Z Z;
  onss_lon : gmap Z R;
  onss_lat : gmap Z R
}.

Record viable_sets : Type := {
  viable_ec1 : list (Z * Z);
  viable_ec2 : list (Z * Z);
  viable_ec3 : list (Z * Z);
  viable_onc : list (Z * Z)
}.

(** "Calculate viable connections" in [opt_model]: the four calls are
    made the same way whatever [cross_border] is, and the country
    dictionaries are not passed to them. *)
Definition viable_connections (cross_border : Z) (d : datasets)
  : result viable_sets :=
  ec1 ← find_viable_ec1 (wf_lon d) (wf_lat d) (eh_lon d) (eh_lat d);
  ec2 ← find_viable_ec2 (eh_lon d) (eh_lat d) (onss_lon d) (onss_lat d);
  ec3 ← find_viable_ec3 (wf_lon d) (wf_lat d) (onss_lon d) (onss_lat d);
  onc ← find_viable_onc (onss_lon d) (onss_lat d);
  Ok {| viable_ec1 := ec1; viable_ec2 := ec2;
        viable_ec3 := ec3; viable_onc := onc |}.

(** *** Vocabulary of the filter claims *)

(** Both endpoints have coordinates and lie within [threshold] km. *)
Definition within (lon1 lat1 lon2 lat2 : gmap Z R) (threshold : R) (a b : Z)
  : Prop :=
  exists x1 y1 x2 y2 : R,
    lon1 !! a = Some x1 /\ lat1 !! a = Some y1 /\
    lon2 !! b = Some x2 /\ lat2 !! b = Some y2 /\
    haversine x1 y1 x2 y2 <= threshold.

(** Every identifier with a longitude has a latitude, as in the
    dictionaries [opt_model] fills record by record. *)
Definition covers (lon lat : gmap Z R) : Prop :=
  forall k : Z, is_Some (lon !! k) -> is_Some (lat !! k).

(** A wind farm registered in Germany (country 1) and an energy hub
    registered in Denmark (country 2) at the same position, and one
    German substation there too. *)
Definition border_case : datasets := {|
  wf_iso := {[ 1%Z := 1%Z ]}; wf_lon := {[ 1%Z := 14 ]}; wf_lat := {[ 1%Z := 55 ]};
  eh_iso := {[ 2%Z := 2%Z ]}; eh_lon := {[ 2%Z := 14 ]}; eh_lat := {[ 2%Z := 55 ]};
  onss_iso := {[ 3%Z := 1%Z ]};
  onss_lon := {[ 3%Z := 14 ]}; onss_lat := {[ 3%Z := 55 ]}
|}.

(** The three loops of [get_viable_entities], each adding the two
    endpoints of every connection to the sets of its classes. *)
Definition get_viable_entities (viable_ec1 viable_ec2 viable_ec3 : list (Z * Z))
  : gset Z * gset Z * gset Z :=
  let viable_wf : gset Z := ∅ in
  let viable_eh : gset Z := ∅ in
  let viable_onss : gset Z := ∅ in
  let '(viable_wf, viable_eh) :=
    foldl (fun '(wfs, ehs) '(wf_id, eh_id) => (wfs ∪ {[ wf_id ]}, ehs ∪ {[ eh_id ]}))
      (viable_wf, viable_eh) viable_ec1 in
  let '(viable_eh, viable_onss) :=
    foldl (fun '(ehs, onsss) '(eh_id, onss_id) =>
             (ehs ∪ {[ eh_id ]}, onsss ∪ {[ onss_id ]}))
      (viable_eh, viable_onss) viable_ec2 in
  let '(viable_wf, viable_onss) :=
    foldl (fun '(wfs, onsss) '(wf_id, onss_id) =>
             (wfs ∪ {[ wf_id ]}, onsss ∪ {[ onss_id ]}))
      (viable_wf, viable_onss) viable_ec3 in
  (viable_wf, viable_eh, viable_onss).

(** [model.viable_wf_ids, model.viable_eh_ids, model.viable_onss_ids] as
    [opt_model] computes them: the peer connections are not passed. *)
Definition viable_entities (v : viable_sets) : gset Z * gset Z * gset Z :=
  get_viable_entities (viable_ec1 v) (viable_ec2 v) (viable_ec3 v).

(** The lookups of a filter over two dictionaries cannot fail: there is
    no pair to look up, or every longitude comes with a latitude. *)
Definition key_safe (lon1 lat1 lon2 lat2 : gmap Z R) : Prop :=
  lon1 = ∅ \/ lon2 = ∅ \/ (covers lon1 lat1 /\ covers lon2 lat2).

End Geo.

(** ** StageOrchestrator (opt_model, lines 1266-1337) *)

Module Stage.
Import Builder.
Local Open Scope Q_scope.

(** An index of a capacity variable: an entity identifier, or the pair of
    identifiers of a connection. *)
Inductive index : Set :=
| Entity (i : Z)
| Link (i j : Z).

#[global] Instance index_eq_dec : EqDecision index.
Proof. solve_decision. Defined.

#[global] Instance index_countable : Countable index.
Proof.
  refine (inj_countable'
    (fun i => match i with Entity a => inl a | Link a b => inr (a, b) end)
    (fun s => match s with inl a => Entity a | inr (a, b) => Link a b end) _).
  intros []; reflexivity.
Defined.

(** The seven capacity variables of the model. *)
Inductive var_name : Set :=
| onss_cap_var | onc_cap_var | wf_cap_var | eh_cap_var
| ec1_cap_var | ec2_cap_var | ec3_cap_var.

(** What the stage loop reads and writes of one indexed variable. *)
Record var_data : Set := { value : Q; lb : Q }.

Definition setlb (var : var_data) (bound : Q) : var_data :=
  {| value := value var; lb := bound |}.

(** [getattr(model, var_name)] *)
Definition model : Type := var_name -> gmap index var_data.

(** [prev_capacity]: a dictionary per variable name. *)
Definition capacities : Type := var_name -> gmap index Z.

Inductive SolverStatus : Set := ok | warning | error | aborted | unknown.

#[global] Instance SolverStatus_eq_dec : EqDecision SolverStatus.
Proof. solve_decision. Defined.

Definition enforce_increase_variables (m : model) (prev_capacity : capacities)
  : model :=
  fun var_name =>
    map_imap
      (fun index var =>
         let prev_cap := default 0%Z (prev_capacity var_name !! index) in
         Some (if bool_decide (zero_th < inject_Z prev_cap)
               then setlb var (inject_Z prev_cap)
               else var))
      (m var_name).

(** [{index: round(var[index].value) for index in var
      if var[index].value > zero_th}] for each variable name. *)
Definition record_capacities (m : model) : capacities :=
  fun var_name =>
    omap
      (fun var =>
         if bool_decide (zero_th < value var)
         then Some (py_round (value var))
         else None)
      (m var_name).

(** One pass of the stage loop, as seen from outside: the model as the
    solver left it and as the stage left it. *)
Record stage_log : Type := {
  stage_year : Z;
  stage_status : SolverStatus;
  solved : model;
  bounded : model
}.

Section Orchestrator.

(** The external solver, run on the model with the stage's parameters
    stored: it reports a status and leaves its solution in the model. *)
Variable solve : Z -> model -> SolverStatus * model.

Fixpoint stage_loop (years : list Z) (m : model) (prev_capacity : capacities)
  : list stage_log :=
  match years with
  | [] => []
  | year :: rest =>
      let '(status, m1) := solve year m in
      match status with
      | ok =>
          let prev_capacity := record_capacities m1 in
          let m2 := enforce_increase_variables m1 prev_capacity in
          {| stage_year := year; stage_status := status;
             solved := m1; bounded := m2 |}
          :: stage_loop rest m2 prev_capacity
      | _ =>
          {| stage_year := year; stage_status := status;
             solved := m1; bounded := m1 |}
          :: stage_loop rest m1 prev_capacity
      end
  end.

Definition solve_multi_stage (m : model) : list stage_log :=
  let first_year_mf_1 := 2030%Z in
  let first_year_mf_2 := 2040%Z in
  let first_year_mf_3 := 2050%Z in
  let prev_capacity : capacities :=
    fun var_name => (fun _ => 0%Z) <$> m var_name in
  stage_loop [first_year_mf_1; first_year_mf_2; first_year_mf_3] m prev_capacity.

End Orchestrator.

(** The realized capacity the loop records for a solved value: rounded,
    and zero at or below the zero threshold. *)
Definition realized_capacity (v : Q) : Z :=
  if bool_decide (zero_th < v) then py_round v else 0%Z.

(** As built, every capacity variable has lower bound 0 (its domain is
    [NonNegativeReals]; the unused group has bounds (0, 0)). *)
Definition fresh (m : model) : Prop :=
  forall name idx var, m name !! idx = Some var -> lb var = 0.

(** A solution within the lower bounds. *)
Definition respects_bounds (m : model) : Prop :=
  forall name idx var, m name !! idx = Some var -> lb var <= value var.

(** The solver only assigns values: same variables, same bounds; and a
    solution it reports as [ok] is within the bounds. *)
Definition well_behaved (solve : Z -> model -> SolverStatus * model) : Prop :=
  forall year m status m1,
    solve year m = (status, m1) ->
    (forall name idx, lb <$> (m1 name !! idx) = lb <$> (m name !! idx)) /\
    (status = ok -> respects_bounds m1).

(** Every lower bound is a non-negative integer. *)
Definition integral (m : model) : Prop :=
  forall name idx var, m name !! idx = Some var ->
    exists z : Z, (0 <= z)%Z /\ lb var = inject_Z z.

(** [below m m']: every variable of [m'] is a variable of [m], and its
    lower bound in [m'] is no smaller. *)
Definition below (m m' : model) : Prop :=
  forall name idx var', m' name !! idx = Some var' ->
    exists var, m name !! idx = Some var /\ lb var <= lb var'.

(** A solver that gives every variable the larger of its lower bound and
    the year's requirement: 100.4 in 2030, 100 afterwards. *)
Definition demand (year : Z) : Q := if (year =? 2030)%Z then 100.4 else 100.

Definition demand_solve (year : Z) (m : model) : SolverStatus * model :=
  (ok, fun name =>
         (fun var => {| value := Qmax (lb var) (demand year); lb := lb var |})
         <$> m name).

(** One wind farm, as built. *)
Definition one_farm : model :=
  fun name =>
    match name with
    | wf_cap_var => {[ Entity 1 := {| value := 0; lb := 0 |} ]}
    | _ => ∅
    end.

End Stage.

(** ** ResultExtractor: incremental capacity (save_results, lines 1035-1167;
    solve_single_stage, lines 1238-1241; solve_multi_stage, lines 1303-1311) *)

Module Records.
Import Builder Extract Stage.
Local Open Scope Q_scope.
Local Open Scope string_scope.

(** The dictionary key of each capacity variable in the [prev_capacity]
    of [solve_multi_stage]. *)
Definition var_key (name : var_name) : string :=
  match name with
  | onss_cap_var => "onss_cap_var"
  | onc_cap_var => "onc_cap_var"
  | wf_cap_var => "wf_cap_var"
  | eh_cap_var => "eh_cap_var"
  | ec1_cap_var => "ec1_cap_var"
  | ec2_cap_var => "ec2_cap_var"
  | ec3_cap_var => "ec3_cap_var"
  end.

(** [prev_capacity] of [solve_multi_stage] as the dictionary it is. *)
Definition multi_stage_prev (prev_capacity : capacities)
  : gmap string (gmap index Z) :=
  list_to_map
    ((fun name => (var_key name, prev_capacity name))
     <$> [onss_cap_var; onc_cap_var; wf_cap_var; eh_cap_var;
          ec1_cap_var; ec2_cap_var; ec3_cap_var]).

(** [prev_capacity] of [solve_single_stage]: two entries, all zero. *)
Definition single_stage_prev (m : model) : gmap string (gmap index Z) :=
  {[ "onss_ids" := (fun _ => 0%Z) <$> m onss_cap_var;
     "onc_ids" := (fun _ => 0%Z) <$> m onc_cap_var ]}.

(** The key under which [save_results] looks up the previous capacity of
    each class of record. *)
Definition save_key (name : var_name) : string :=
  match name with
  | wf_cap_var => "wf_cap_var"
  | eh_cap_var => "eh_cap_var"
  | onss_cap_var => "onss_ids"
  | ec1_cap_var => "ec1_cap_var"
  | ec2_cap_var => "ec2_cap_var"
  | ec3_cap_var => "ec3_cap_var"
  | onc_cap_var => "onc_ids"
  end.

(** [rnd_f(var) - prev_capacity.get(key, {}).get(index, 0)] *)
Definition cap_diff (prev_capacity : gmap string (gmap index Z))
  (name : var_name) (idx : index) (var : var_data) : Q :=
  let capacity := rnd_f (value var) in
  capacity
  - inject_Z (default 0%Z (default ∅ (prev_capacity !! save_key name) !! idx)).

End Records.

(** * Properties *)

(** ** Rounding *)

Section RoundingFacts.
Local Open Scope Q_scope.

Lemma py_round_floor (x : Q) :
  (Qfloor x <= py_round x <= Qfloor x + 1)%Z.
Proof.
  unfold py_round. cbv zeta.
  destruct (x - inject_Z (Qfloor x) ?= 1 # 2); [destruct (Z.even _) | |]; lia.
Qed.

Lemma py_round_ge_int (n : Z) (x : Q) : inject_Z n <= x -> (n <= py_round x)%Z.
Proof.
  intros H. apply Qfloor_resp_le in H. rewrite Qfloor_Z in H.
  pose proof (py_round_floor x). lia.
Qed.

Lemma zero_th_lt_int (p : Z) : Builder.zero_th < inject_Z p <-> (1 <= p)%Z.
Proof.
  unfold Builder.zero_th. split.
  - intros H. destruct (Z_lt_le_dec p 1) as [Hlt | Hge]; [| exact Hge].
    exfalso. assert (Hp : (p <= 0)%Z) by lia.
    rewrite Zle_Qle in Hp. change (inject_Z 0) with 0 in Hp.
    change 1e-3 with (1 # 1000) in H. lra.
  - intros H. rewrite Zle_Qle in H. change (inject_Z 1) with 1 in H.
    change 1e-3 with (1 # 1000). lra.
Qed.

Lemma py_round_comp (x y : Q) : x == y -> py_round x = py_round y.
Proof.
  intros H. unfold py_round. cbv zeta.
  rewrite (Qfloor_comp _ _ H).
  assert (Hc : (x - inject_Z (Qfloor y) ?= 1 # 2)
               = (y - inject_Z (Qfloor y) ?= 1 # 2)).
  { apply Qcompare_comp; [now rewrite H | reflexivity]. }
  now rewrite Hc.
Qed.

Lemma py_round6_comp (x y : Q) : x == y -> py_round6 x = py_round6 y.
Proof.
  intros H. unfold py_round6.
  rewrite (py_round_comp (x * inject_Z 1000000) (y * inject_Z 1000000));
    [reflexivity | now rewrite H].
Qed.

Lemma py_round6_nonneg (x : Q) : 0 <= x -> 0 <= py_round6 x.
Proof.
  intros H. unfold py_round6.
  assert (Hz : (0 <= py_round (x * inject_Z 1000000))%Z).
  { apply py_round_ge_int. change (inject_Z 0) with 0.
    change (inject_Z 1000000) with 1000000. lra. }
  rewrite Zle_Qle in Hz. change (inject_Z 0) with 0 in Hz.
  apply Qle_shift_div_l; [reflexivity | lra].
Qed.

Lemma py_round6_zero : py_round6 0 == 0.
Proof. reflexivity. Qed.

End RoundingFacts.

(** ** CostModel *)

Section CostModelFacts.
Import CostModel.
Local Open Scope Q_scope.
Local Open Scope string_scope.

Variable discount : Z -> discounting.

(** Literals in scientific notation, put in the form [lra] reads. *)
Ltac sci := change 1e-2 with (1 # 100) in *.

Lemma onss_cost_lin_linear (first_year : Z) (capacity threshold : Q) :
  onss_cost_lin discount first_year capacity threshold ==
  (df_equip (discount first_year) * 0.02287
   + df_ope (discount first_year) * (0.015 * 0.02287)) * (capacity - threshold).
Proof.
  unfold onss_cost_lin, present_value_single. cbv zeta. ring.
Qed.

Lemma cables_lin_nonneg (capacity : Q) : 0 <= capacity -> 0 <= cables_lin capacity.
Proof.
  intros H. unfold cables_lin.
  apply Qle_shift_div_l; [reflexivity | lra].
Qed.

Lemma cables_ceil_nonneg (capacity : Q) : 0 <= capacity -> 0 <= cables_ceil capacity.
Proof.
  intros H. unfold cables_ceil.
  apply Qle_trans with (capacity / (348 * 0.95)).
  - now apply cables_lin_nonneg.
  - apply Qle_ceiling.
Qed.

Lemma cables_lin_zero (capacity : Q) : capacity == 0 -> cables_lin capacity == 0.
Proof. intros H. unfold cables_lin. rewrite H. reflexivity. Qed.

Lemma cables_ceil_zero (capacity : Q) : capacity == 0 -> cables_ceil capacity == 0.
Proof. intros H. unfold cables_ceil. rewrite H. reflexivity. Qed.

Lemma cable_lifecycle_cost_nonneg (first_year : Z) (n len equip_rate inst_rate : Q) :
  discounting_pos (discount first_year) ->
  0 <= n -> 0 <= len -> 0 <= equip_rate -> 0 <= inst_rate ->
  0 <= cable_lifecycle_cost discount first_year n len equip_rate inst_rate.
Proof.
  intros (He & Hi & Ho & Hd) Hn Hl Her Hir.
  unfold cable_lifecycle_cost, present_value_single. cbv zeta.
  assert (Hnl : 0 <= n * len) by now apply Qmult_le_0_compat.
  assert (Hq : 0 <= n * len * equip_rate) by now apply Qmult_le_0_compat.
  assert (Hr : 0 <= n * len * inst_rate) by now apply Qmult_le_0_compat.
  set (q := n * len * equip_rate) in *. set (r := n * len * inst_rate) in *.
  sci. nra.
Qed.

Lemma cable_lifecycle_cost_zero (first_year : Z) (n len equip_rate inst_rate : Q) :
  n == 0 -> cable_lifecycle_cost discount first_year n len equip_rate inst_rate == 0.
Proof.
  intros Hn. unfold cable_lifecycle_cost, present_value_single. cbv zeta.
  rewrite Hn. ring.
Qed.

Lemma valid_mode_cases (function : string) :
  valid_mode function \/
  (String.eqb function "lin" = false /\ String.eqb function "ceil" = false).
Proof.
  unfold valid_mode.
  destruct (String.eqb_spec function "lin") as [-> | Hl]; [now left; left |].
  destruct (String.eqb_spec function "ceil") as [-> | Hc]; [now left; right |].
  now right.
Qed.

(** C9. [ec2_cost_fun] and [ec3_cost_fun] agree on every reference year,
    distance, capacity and mode. *)
Theorem ec2_ec3_cost_fun_equal
  (first_year : Z) (distance capacity : Q) (function : string) :
  ec2_cost_fun discount first_year distance capacity function
  = ec3_cost_fun discount first_year distance capacity function.
Proof. reflexivity. Qed.

(** C10. Each cable cost function returns a cost exactly when its mode is
    "lin" or "ceil"; for any other mode the cable count is never assigned
    and the call raises [UnboundLocalError]. *)
Theorem cable_cost_mode_precondition
  (first_year : Z) (distance capacity : Q) (function : string) :
  (is_ok (ec1_cost_fun discount first_year distance capacity function)
     <-> valid_mode function) /\
  (is_ok (ec2_cost_fun discount first_year distance capacity function)
     <-> valid_mode function) /\
  (is_ok (ec3_cost_fun discount first_year distance capacity function)
     <-> valid_mode function) /\
  (is_ok (onc_cost_fun discount first_year distance capacity function)
     <-> valid_mode function) /\
  (~ valid_mode function ->
   ec1_cost_fun discount first_year distance capacity function
     = Raise UnboundLocalError /\
   ec2_cost_fun discount first_year distance capacity function
     = Raise UnboundLocalError /\
   ec3_cost_fun discount first_year distance capacity function
     = Raise UnboundLocalError /\
   onc_cost_fun discount first_year distance capacity function
     = Raise UnboundLocalError).
Proof.
  unfold ec1_cost_fun, ec2_cost_fun, ec3_cost_fun, onc_cost_fun.
  destruct (valid_mode_cases function) as [[-> | ->] | [Hl Hc]].
  - repeat split; simpl; intros; try exact I; try (now left).
    all: exfalso; apply H; now left.
  - repeat split; simpl; intros; try exact I; try (now right).
    all: exfalso; apply H; now right.
  - rewrite Hl, Hc. simpl.
    assert (Hn : ~ valid_mode function).
    { intros [-> | ->]; discriminate. }
    repeat split; intros; try contradiction; reflexivity.
Qed.

Lemma cable_cost_sound (first_year : Z) (len equip_rate inst_rate capacity : Q)
  (function : string) :
  discounting_pos (discount first_year) ->
  valid_mode function -> 0 <= len -> 0 <= equip_rate -> 0 <= inst_rate ->
  0 <= capacity ->
  sound_cost capacity
    (n ← (if String.eqb function "lin" then Ok (cables_lin capacity)
          else if String.eqb function "ceil" then Ok (cables_ceil capacity)
          else Raise UnboundLocalError);
     Ok (cable_lifecycle_cost discount first_year n len equip_rate inst_rate)).
Proof.
  intros Hd [-> | ->] Hl He Hi Hc; simpl; split.
  - apply cable_lifecycle_cost_nonneg; auto using cables_lin_nonneg.
  - intros H0. apply cable_lifecycle_cost_zero. now apply cables_lin_zero.
  - apply cable_lifecycle_cost_nonneg; auto using cables_ceil_nonneg.
  - intros H0. apply cable_lifecycle_cost_zero. now apply cables_ceil_zero.
Qed.

Lemma onss_cost_lin_sign (first_year : Z) (capacity threshold : Q) :
  discounting_pos (discount first_year) ->
  (0 <= onss_cost_lin discount first_year capacity threshold
     <-> threshold <= capacity) /\
  (onss_cost_lin discount first_year capacity threshold == 0
     <-> capacity == threshold) /\
  (capacity <= threshold ->
   onss_cost_lin discount first_year capacity threshold <= 0).
Proof.
  intros (He & _ & Ho & _).
  rewrite onss_cost_lin_linear.
  set (k := df_equip (discount first_year) * 0.02287
            + df_ope (discount first_year) * (0.015 * 0.02287)).
  assert (Hk : 0 < k) by (unfold k; lra).
  clearbody k. split; [| split]; [split | split |]; intros H; nra.
Qed.

Lemma present_value_single_nonneg
  (first_year : Z) (equip_cost inst_cost ope_cost_yearly deco_cost : Q) :
  discounting_pos (discount first_year) ->
  0 <= equip_cost -> 0 <= inst_cost -> 0 <= ope_cost_yearly -> 0 <= deco_cost ->
  let total :=
    present_value_single discount first_year
      equip_cost inst_cost ope_cost_yearly deco_cost in
  0 <= total /\
  df_inst (discount first_year) * inst_cost
  + df_deco (discount first_year) * deco_cost <= total /\
  (total == 0 <->
   equip_cost == 0 /\ inst_cost == 0 /\ ope_cost_yearly == 0 /\ deco_cost == 0).
Proof.
  intros (He & Hi & Ho & Hd) H1 H2 H3 H4 total. subst total.
  unfold present_value_single. cbv zeta.
  set (we := df_equip (discount first_year)) in *.
  set (wi := df_inst (discount first_year)) in *.
  set (wo := df_ope (discount first_year)) in *.
  set (wd := df_deco (discount first_year)) in *.
  clearbody we wi wo wd.
  assert (P1 : 0 <= we * equip_cost) by (apply Qmult_le_0_compat; lra).
  assert (P2 : 0 <= wi * inst_cost) by (apply Qmult_le_0_compat; lra).
  assert (P3 : 0 <= wo * ope_cost_yearly) by (apply Qmult_le_0_compat; lra).
  assert (P4 : 0 <= wd * deco_cost) by (apply Qmult_le_0_compat; lra).
  split; [lra |]. split; [lra |]. split.
  - intros Hs.
    assert (Z1 : we * equip_cost == 0) by lra.
    assert (Z2 : wi * inst_cost == 0) by lra.
    assert (Z3 : wo * ope_cost_yearly == 0) by lra.
    assert (Z4 : wd * deco_cost == 0) by lra.
    apply Qmult_integral in Z1, Z2, Z3, Z4.
    repeat split; [destruct Z1 | destruct Z2 | destruct Z3 | destruct Z4];
      lra.
  - intros (-> & -> & -> & ->). ring.
Qed.

(** C1 (amended). With positive present-value weights: [wf_cost_lin] (rated
    capacity above zero) and the four cable cost functions (mode "lin" or
    "ceil") return a non-negative cost on non-negative inputs and 0 at zero
    capacity.  [onss_cost_lin] is a positive multiple of
    [capacity - threshold], so it is non-negative exactly when the capacity
    reaches the threshold and 0 exactly at the threshold; the [onss_cost]
    field of result extraction, which takes [max(0, onss_cost_lin ...)]
    before rounding, is non-negative, 0 whenever the capacity increment
    does not exceed the threshold, and the rounded [onss_cost_lin] above
    it.  [eh_cost_lin], whatever its helpers are, is non-negative when
    they return non-negative converter, equipment, installation and
    decommissioning costs and the activation flag is not negative; it is
    at least the flag times the present value of installation and
    decommissioning whatever the capacity, and is 0 only when all four
    components are 0. *)
Theorem cost_nonneg_and_zero_at_zero :
  (forall y, discounting_pos (discount y)) ->
  forall first_year : Z,
  (forall wf_cost wf_total_cap wf_cap : Q,
     0 <= wf_cost -> 0 < wf_total_cap -> 0 <= wf_cap ->
     sound_cost wf_cap (wf_cost_lin wf_cost wf_total_cap wf_cap)) /\
  (forall (distance capacity : Q) (function : string),
     valid_mode function -> 0 <= distance -> 0 <= capacity ->
     sound_cost capacity
       (ec1_cost_fun discount first_year distance capacity function) /\
     sound_cost capacity
       (ec2_cost_fun discount first_year distance capacity function) /\
     sound_cost capacity
       (ec3_cost_fun discount first_year distance capacity function) /\
     sound_cost capacity
       (onc_cost_fun discount first_year distance capacity function)) /\
  (forall capacity threshold : Q,
     (0 <= onss_cost_lin discount first_year capacity threshold
        <-> threshold <= capacity) /\
     (onss_cost_lin discount first_year capacity threshold == 0
        <-> capacity == threshold)) /\
  (forall onss_cap_diff onss_thold : Q,
     0 <= Extract.onss_record_cost discount first_year onss_cap_diff onss_thold /\
     (onss_cap_diff <= onss_thold ->
      Extract.onss_record_cost discount first_year onss_cap_diff onss_thold
      == 0) /\
     (onss_thold <= onss_cap_diff ->
      Extract.onss_record_cost discount first_year onss_cap_diff onss_thold
      == Extract.rnd_f
           (onss_cost_lin discount first_year onss_cap_diff onss_thold))) /\
  (forall (structure : Type) (check_supp : Q -> structure)
          (equip_cost_lin : Q -> structure -> Z -> Q -> Q -> Q * Q)
          (inst_deco_cost_lin : structure -> Q -> string -> Q)
          (water_depth : Q) (ice_cover : Z)
          (port_distance eh_capacity eh_active : Q),
     let supp_structure := check_supp water_depth in
     let costs :=
       equip_cost_lin water_depth supp_structure ice_cover
         eh_capacity eh_active in
     let inst := inst_deco_cost_lin supp_structure port_distance "inst" in
     let deco := inst_deco_cost_lin supp_structure port_distance "deco" in
     let eh_cost :=
       eh_cost_lin discount check_supp equip_cost_lin inst_deco_cost_lin
         first_year water_depth ice_cover port_distance eh_capacity eh_active in
     0 <= costs.1 -> 0 <= costs.2 -> 0 <= inst -> 0 <= deco ->
     0 <= eh_active ->
     0 <= eh_cost /\
     eh_active * (df_inst (discount first_year) * inst
                  + df_deco (discount first_year) * deco) <= eh_cost /\
     (eh_cost == 0 <->
      costs.2 == 0 /\ eh_active * inst == 0 /\ costs.1 == 0 /\
      eh_active * deco == 0)).
Proof.
  intros Hpos first_year. split; [| split; [| split; [| split]]].
  - intros wf_cost wf_total_cap wf_cap Hc Ht Hw.
    unfold sound_cost, wf_cost_lin, py_div.
    destruct (Qeq_bool wf_total_cap 0) eqn:E.
    + apply Qeq_bool_eq in E. lra.
    + simpl. split.
      * apply Qmult_le_0_compat; [exact Hc |].
        apply Qle_shift_div_l; [exact Ht | lra].
      * intros H0. rewrite H0. unfold Qdiv. ring.
  - intros distance capacity function Hm Hd Hc.
    repeat split.
    + apply (cable_cost_sound first_year (1.10 * distance) 0.860 0.540);
        auto; lra.
    + apply (cable_cost_sound first_year (1.10 * distance + 2) 0.860 0.540);
        auto; lra.
    + apply (cable_cost_sound first_year (1.10 * distance + 2) 0.860 0.540);
        auto; lra.
    + apply (cable_cost_sound first_year (1.10 * distance) 0.860 (0.540 * 0.5));
        auto; lra.
  - intros capacity threshold.
    destruct (onss_cost_lin_sign first_year capacity threshold (Hpos first_year))
      as (Hsign & Hzero & _).
    split; [exact Hsign | exact Hzero].
  - intros onss_cap_diff onss_thold.
    destruct (onss_cost_lin_sign first_year onss_cap_diff onss_thold
                (Hpos first_year)) as (Hsign & _ & Hneg).
    unfold Extract.onss_record_cost, Extract.sf_onss, Extract.rnd_f.
    set (c := onss_cost_lin discount first_year onss_cap_diff onss_thold) in *.
    split; [| split].
    + pose proof (py_round6_nonneg (Qmax 0 c) (Q.le_max_l 0 c)). lra.
    + intros Hle.
      rewrite (py_round6_comp (Qmax 0 c) 0) by (apply Q.max_l; auto).
      rewrite py_round6_zero. ring.
    + intros Hge.
      rewrite (py_round6_comp (Qmax 0 c) c) by (apply Q.max_r; tauto).
      ring.
  - intros structure check_supp equip_cost_lin inst_deco_cost_lin
      water_depth ice_cover port_distance eh_capacity eh_active
      supp_structure costs inst deco eh_cost Hconv Hequip Hinst Hdeco Hact.
    assert (Heq : eh_cost
                  = present_value_single discount first_year
                      costs.2 (eh_active * inst) (0.03 * costs.1)
                      (eh_active * deco)).
    { subst eh_cost. unfold eh_cost_lin. cbv zeta.
      fold supp_structure. fold costs. fold inst. fold deco.
      now destruct costs. }
    rewrite Heq. clear Heq.
    assert (Hi : 0 <= eh_active * inst) by (apply Qmult_le_0_compat; lra).
    assert (Hd : 0 <= eh_active * deco) by (apply Qmult_le_0_compat; lra).
    assert (Ho : 0 <= 0.03 * costs.1) by lra.
    destruct (present_value_single_nonneg first_year
                costs.2 (eh_active * inst) (0.03 * costs.1) (eh_active * deco)
                (Hpos first_year) Hequip Hi Ho Hd) as (H1 & H2 & H3).
    split; [exact H1 |]. split; [lra |].
    rewrite H3. split.
    + intros (A & B & C & D). repeat split; try assumption; lra.
    + intros (A & B & C & D). repeat split; try assumption; lra.
Qed.

End CostModelFacts.

Section CostModelLaws.
Import CostModel.
Local Open Scope Q_scope.
Local Open Scope string_scope.

Variable discount : Z -> discounting.

Ltac sci := change 1e-2 with (1 # 100) in *.

Lemma cable_lifecycle_cost_scale (first_year : Z) (n len equip_rate inst_rate : Q) :
  cable_lifecycle_cost discount first_year n len equip_rate inst_rate
  == n * len * cable_km_cost discount first_year equip_rate inst_rate.
Proof.
  unfold cable_km_cost, cable_lifecycle_cost, present_value_single.
  cbv zeta. ring.
Qed.

Lemma cable_km_cost_nonneg (first_year : Z) (equip_rate inst_rate : Q) :
  discounting_pos (discount first_year) ->
  0 <= equip_rate -> 0 <= inst_rate ->
  0 <= cable_km_cost discount first_year equip_rate inst_rate.
Proof.
  intros Hd He Hi. unfold cable_km_cost.
  apply cable_lifecycle_cost_nonneg; auto; lra.
Qed.

Lemma cable_km_cost_mono (first_year : Z) (e i i' : Q) :
  discounting_pos (discount first_year) -> i <= i' ->
  cable_km_cost discount first_year e i <= cable_km_cost discount first_year e i'.
Proof.
  intros (He & Hi & Ho & Hd) Hle.
  unfold cable_km_cost, cable_lifecycle_cost, present_value_single.
  cbv zeta. sci. nra.
Qed.

Lemma cables_lin_le_ceil (capacity : Q) : cables_lin capacity <= cables_ceil capacity.
Proof. apply Qle_ceiling. Qed.

Lemma cables_ceil_lt_lin_plus_1 (capacity : Q) :
  cables_ceil capacity < cables_lin capacity + 1.
Proof.
  unfold cables_ceil, cables_lin.
  pose proof (Qceiling_lt (capacity / (348 * 0.95))) as H.
  unfold Z.sub in H. rewrite inject_Z_plus, inject_Z_opp in H.
  change (inject_Z 1) with 1 in H. lra.
Qed.

Lemma cables_lin_unit : cables_lin (348 * 0.95) == 1.
Proof. reflexivity. Qed.

Lemma cables_lin_mono (c c' : Q) : c <= c' -> cables_lin c <= cables_lin c'.
Proof.
  intros H. unfold cables_lin, Qdiv.
  apply Qmult_le_compat_r; [exact H | discriminate].
Qed.

Lemma cables_ceil_mono (c c' : Q) : c <= c' -> cables_ceil c <= cables_ceil c'.
Proof.
  intros H. unfold cables_ceil. rewrite <- Zle_Qle.
  apply Qceiling_resp_le. now apply cables_lin_mono.
Qed.

Lemma cables_lin_plus (c c' : Q) :
  cables_lin (c + c') == cables_lin c + cables_lin c'.
Proof. unfold cables_lin. field. Qed.

Lemma cables_lin_scale (a c : Q) : cables_lin (a * c) == a * cables_lin c.
Proof. unfold cables_lin. field. Qed.

(** The shape of each cable cost in each mode. *)
Lemma ec1_lin (y : Z) (d c : Q) :
  ec1_cost_fun discount y d c "lin"
  = Ok (cable_lifecycle_cost discount y (cables_lin c) (1.10 * d) 0.860 0.540).
Proof. reflexivity. Qed.

Lemma ec1_ceil (y : Z) (d c : Q) :
  ec1_cost_fun discount y d c "ceil"
  = Ok (cable_lifecycle_cost discount y (cables_ceil c) (1.10 * d) 0.860 0.540).
Proof. reflexivity. Qed.

Lemma ec2_lin (y : Z) (d c : Q) :
  ec2_cost_fun discount y d c "lin"
  = Ok (cable_lifecycle_cost discount y (cables_lin c) (1.10 * d + 2) 0.860 0.540).
Proof. reflexivity. Qed.

Lemma ec2_ceil (y : Z) (d c : Q) :
  ec2_cost_fun discount y d c "ceil"
  = Ok (cable_lifecycle_cost discount y (cables_ceil c) (1.10 * d + 2) 0.860 0.540).
Proof. reflexivity. Qed.

Lemma ec3_lin (y : Z) (d c : Q) :
  ec3_cost_fun discount y d c "lin"
  = Ok (cable_lifecycle_cost discount y (cables_lin c) (1.10 * d + 2) 0.860 0.540).
Proof. reflexivity. Qed.

Lemma ec3_ceil (y : Z) (d c : Q) :
  ec3_cost_fun discount y d c "ceil"
  = Ok (cable_lifecycle_cost discount y (cables_ceil c) (1.10 * d + 2) 0.860 0.540).
Proof. reflexivity. Qed.

Lemma onc_lin (y : Z) (d c : Q) :
  onc_cost_fun discount y d c "lin"
  = Ok (cable_lifecycle_cost discount y (cables_lin c) (1.10 * d)
          0.860 (0.540 * 0.5)).
Proof. reflexivity. Qed.

Lemma onc_ceil (y : Z) (d c : Q) :
  onc_cost_fun discount y d c "ceil"
  = Ok (cable_lifecycle_cost discount y (cables_ceil c) (1.10 * d)
          0.860 (0.540 * 0.5)).
Proof. reflexivity. Qed.

Lemma cable_cost_bracket (y : Z) (len e i capacity : Q) :
  discounting_pos (discount y) -> 0 <= len -> 0 <= e -> 0 <= i ->
  cable_lifecycle_cost discount y (cables_lin capacity) len e i
    <= cable_lifecycle_cost discount y (cables_ceil capacity) len e i /\
  cable_lifecycle_cost discount y (cables_ceil capacity) len e i
    <= cable_lifecycle_cost discount y (cables_lin capacity) len e i
       + cable_lifecycle_cost discount y (cables_lin (348 * 0.95)) len e i.
Proof.
  intros Hd Hl He Hi.
  rewrite !cable_lifecycle_cost_scale, cables_lin_unit.
  pose proof (cable_km_cost_nonneg y e i Hd He Hi) as Hk.
  pose proof (cables_lin_le_ceil capacity) as H1.
  pose proof (cables_ceil_lt_lin_plus_1 capacity) as H2.
  set (k := cable_km_cost discount y e i) in *.
  set (n := cables_lin capacity) in *. set (n' := cables_ceil capacity) in *.
  clearbody k n n'.
  assert (Hlk : 0 <= len * k) by now apply Qmult_le_0_compat.
  split; nra.
Qed.

(** X1. For each cable class, at a non-negative distance and with positive
    present-value weights, the as-built cost (mode "ceil") is never below
    the cost the optimisation uses (mode "lin"), and exceeds it by at most
    the cost of one fully used cable ([348 * 0.95] MW) over that
    distance. *)
Theorem ceil_cost_brackets_lin_cost (first_year : Z) (distance capacity : Q) :
  discounting_pos (discount first_year) -> 0 <= distance ->
  returns (ec1_cost_fun discount first_year distance (348 * 0.95) "lin") (fun u =>
    returns2 (ec1_cost_fun discount first_year distance capacity "lin")
             (ec1_cost_fun discount first_year distance capacity "ceil")
             (fun l c => l <= c /\ c <= l + u)) /\
  returns (ec2_cost_fun discount first_year distance (348 * 0.95) "lin") (fun u =>
    returns2 (ec2_cost_fun discount first_year distance capacity "lin")
             (ec2_cost_fun discount first_year distance capacity "ceil")
             (fun l c => l <= c /\ c <= l + u)) /\
  returns (ec3_cost_fun discount first_year distance (348 * 0.95) "lin") (fun u =>
    returns2 (ec3_cost_fun discount first_year distance capacity "lin")
             (ec3_cost_fun discount first_year distance capacity "ceil")
             (fun l c => l <= c /\ c <= l + u)) /\
  returns (onc_cost_fun discount first_year distance (348 * 0.95) "lin") (fun u =>
    returns2 (onc_cost_fun discount first_year distance capacity "lin")
             (onc_cost_fun discount first_year distance capacity "ceil")
             (fun l c => l <= c /\ c <= l + u)).
Proof.
  intros Hd Hdist.
  assert (H0 : 0 <= 1.10 * distance) by lra.
  assert (H2 : 0 <= 1.10 * distance + 2) by lra.
  assert (He : 0 <= 0.860) by discriminate.
  assert (Hi : 0 <= 0.540) by discriminate.
  assert (Hi' : 0 <= 0.540 * 0.5) by discriminate.
  pose proof (cable_cost_bracket first_year _ _ _ capacity Hd H0 He Hi) as B1.
  pose proof (cable_cost_bracket first_year _ _ _ capacity Hd H2 He Hi) as B2.
  pose proof (cable_cost_bracket first_year _ _ _ capacity Hd H0 He Hi') as B3.
  rewrite ?ec1_lin, ?ec1_ceil, ?ec2_lin, ?ec2_ceil, ?ec3_lin, ?ec3_ceil,
    ?onc_lin, ?onc_ceil.
  cbn [returns returns2].
  exact (conj B1 (conj B2 (conj B2 B3))).
Qed.

(** X2. In mode "lin" every cable cost is linear in the capacity: the cost
    of a sum of capacities is the sum of the costs, and scaling the
    capacity scales the cost.  [onss_cost_lin] is affine instead: adding
    capacity [d] adds the cost of [d] above a zero threshold. *)
Theorem lin_cost_linear_in_capacity (first_year : Z) (distance c c' a : Q) :
  returns (ec1_cost_fun discount first_year distance c "lin") (fun x =>
    returns2 (ec1_cost_fun discount first_year distance c' "lin")
             (ec1_cost_fun discount first_year distance (c + c') "lin")
             (fun x' s => s == x + x') /\
    returns (ec1_cost_fun discount first_year distance (a * c) "lin")
            (fun s => s == a * x)) /\
  returns (ec2_cost_fun discount first_year distance c "lin") (fun x =>
    returns2 (ec2_cost_fun discount first_year distance c' "lin")
             (ec2_cost_fun discount first_year distance (c + c') "lin")
             (fun x' s => s == x + x') /\
    returns (ec2_cost_fun discount first_year distance (a * c) "lin")
            (fun s => s == a * x)) /\
  returns (ec3_cost_fun discount first_year distance c "lin") (fun x =>
    returns2 (ec3_cost_fun discount first_year distance c' "lin")
             (ec3_cost_fun discount first_year distance (c + c') "lin")
             (fun x' s => s == x + x') /\
    returns (ec3_cost_fun discount first_year distance (a * c) "lin")
            (fun s => s == a * x)) /\
  returns (onc_cost_fun discount first_year distance c "lin") (fun x =>
    returns2 (onc_cost_fun discount first_year distance c' "lin")
             (onc_cost_fun discount first_year distance (c + c') "lin")
             (fun x' s => s == x + x') /\
    returns (onc_cost_fun discount first_year distance (a * c) "lin")
            (fun s => s == a * x)) /\
  (forall threshold : Q,
     onss_cost_lin discount first_year (c + c') threshold
     == onss_cost_lin discount first_year c threshold
        + onss_cost_lin discount first_year c' 0).
Proof.
  rewrite ?ec1_lin, ?ec2_lin, ?ec3_lin, ?onc_lin.
  cbn [returns returns2].
  rewrite !cable_lifecycle_cost_scale, !cables_lin_plus, !cables_lin_scale.
  repeat split; try ring.
  intros threshold. rewrite !onss_cost_lin_linear. ring.
Qed.

Lemma cable_cost_mono (y : Z) (n n' len len' e i : Q) :
  discounting_pos (discount y) -> 0 <= e -> 0 <= i ->
  0 <= n -> n <= n' -> 0 <= len -> len <= len' ->
  cable_lifecycle_cost discount y n len e i
  <= cable_lifecycle_cost discount y n' len' e i.
Proof.
  intros Hd He Hi Hn Hnn Hl Hll.
  rewrite !cable_lifecycle_cost_scale.
  pose proof (cable_km_cost_nonneg y e i Hd He Hi) as Hk.
  set (k := cable_km_cost discount y e i) in *. clearbody k.
  assert (H1 : n * len <= n' * len') by nra.
  nra.
Qed.

(** X3. With positive present-value weights and a mode "lin" or "ceil",
    no cable cost decreases when the (non-negative) capacity or the
    (non-negative) distance grows. *)
Theorem cable_cost_monotone
  (first_year : Z) (distance distance' capacity capacity' : Q)
  (function : string) :
  discounting_pos (discount first_year) -> valid_mode function ->
  0 <= distance -> distance <= distance' ->
  0 <= capacity -> capacity <= capacity' ->
  returns2 (ec1_cost_fun discount first_year distance capacity function)
           (ec1_cost_fun discount first_year distance' capacity' function)
           Qle /\
  returns2 (ec2_cost_fun discount first_year distance capacity function)
           (ec2_cost_fun discount first_year distance' capacity' function)
           Qle /\
  returns2 (ec3_cost_fun discount first_year distance capacity function)
           (ec3_cost_fun discount first_year distance' capacity' function)
           Qle /\
  returns2 (onc_cost_fun discount first_year distance capacity function)
           (onc_cost_fun discount first_year distance' capacity' function)
           Qle.
Proof.
  intros Hd [-> | ->] H0d Hdd H0c Hcc.
  - rewrite ?ec1_lin, ?ec2_lin, ?ec3_lin, ?onc_lin. cbn [returns returns2].
    repeat split; apply cable_cost_mono;
      auto using cables_lin_nonneg, cables_lin_mono; lra.
  - rewrite ?ec1_ceil, ?ec2_ceil, ?ec3_ceil, ?onc_ceil. cbn [returns returns2].
    repeat split; apply cable_cost_mono;
      auto using cables_ceil_nonneg, cables_ceil_mono; lra.
Qed.

Lemma cable_cost_by_class (y : Z) (n d : Q) :
  discounting_pos (discount y) -> 0 <= n -> 0 <= d ->
  cable_lifecycle_cost discount y n (1.10 * d) 0.860 (0.540 * 0.5)
    <= cable_lifecycle_cost discount y n (1.10 * d) 0.860 0.540 /\
  cable_lifecycle_cost discount y n (1.10 * d) 0.860 0.540
    <= cable_lifecycle_cost discount y n (1.10 * d + 2) 0.860 0.540.
Proof.
  intros Hd Hn H0d. split.
  - rewrite !cable_lifecycle_cost_scale.
    assert (Hk := cable_km_cost_mono y 0.860 (0.540 * 0.5) 0.540 Hd).
    assert (Hnl : 0 <= n * (1.10 * d)) by (apply Qmult_le_0_compat; lra).
    assert (Hle : 0.540 * 0.5 <= 0.540) by lra. specialize (Hk Hle).
    set (k := cable_km_cost discount y 0.860 (0.540 * 0.5)) in *.
    set (k' := cable_km_cost discount y 0.860 0.540) in *.
    clearbody k k'. nra.
  - apply cable_cost_mono; auto; lra.
Qed.

(** X4. At the same year, distance, capacity and mode the onshore peer
    cable costs no more than the WF->EH export cable, which costs no more
    than the two export classes with the transition add-on. *)
Theorem cable_cost_class_order
  (first_year : Z) (distance capacity : Q) (function : string) :
  discounting_pos (discount first_year) -> valid_mode function ->
  0 <= distance -> 0 <= capacity ->
  returns2 (onc_cost_fun discount first_year distance capacity function)
           (ec1_cost_fun discount first_year distance capacity function)
           Qle /\
  returns2 (ec1_cost_fun discount first_year distance capacity function)
           (ec2_cost_fun discount first_year distance capacity function)
           Qle /\
  returns2 (ec1_cost_fun discount first_year distance capacity function)
           (ec3_cost_fun discount first_year distance capacity function)
           Qle.
Proof.
  intros Hd [-> | ->] H0d H0c.
  - rewrite ?ec1_lin, ?ec2_lin, ?ec3_lin, ?onc_lin. cbn [returns returns2].
    destruct (cable_cost_by_class first_year (cables_lin capacity) distance)
      as [H1 H2]; auto using cables_lin_nonneg.
  - rewrite ?ec1_ceil, ?ec2_ceil, ?ec3_ceil, ?onc_ceil. cbn [returns returns2].
    destruct (cable_cost_by_class first_year (cables_ceil capacity) distance)
      as [H1 H2]; auto using cables_ceil_nonneg.
Qed.

End CostModelLaws.

Section WindFarmCost.
Import CostModel.
Local Open Scope Q_scope.

(** X5. [wf_cost_lin] raises [ZeroDivisionError] exactly when the rated
    capacity is zero.  Otherwise it returns the whole wind-farm cost at
    full rated capacity, a cost between 0 and the whole cost for a
    selected capacity between 0 and the rated one (cost and rated capacity
    non-negative), and it is additive in the selected capacity. *)
Theorem wf_cost_lin_proportional (wf_cost wf_total_cap : Q) :
  (wf_total_cap == 0 ->
   forall wf_cap, wf_cost_lin wf_cost wf_total_cap wf_cap = Raise ZeroDivisionError) /\
  (~ wf_total_cap == 0 ->
   returns (wf_cost_lin wf_cost wf_total_cap wf_total_cap)
     (fun c => c == wf_cost) /\
   (forall wf_cap wf_cap',
      returns (wf_cost_lin wf_cost wf_total_cap wf_cap) (fun x =>
        returns2 (wf_cost_lin wf_cost wf_total_cap wf_cap')
                 (wf_cost_lin wf_cost wf_total_cap (wf_cap + wf_cap'))
                 (fun x' s => s == x + x'))) /\
   (forall wf_cap,
      0 <= wf_cost -> 0 <= wf_total_cap -> 0 <= wf_cap -> wf_cap <= wf_total_cap ->
      returns (wf_cost_lin wf_cost wf_total_cap wf_cap)
        (fun c => 0 <= c /\ c <= wf_cost))).
Proof.
  unfold wf_cost_lin, py_div. split.
  - intros H0 wf_cap. apply Qeq_bool_iff in H0. now rewrite H0.
  - intros Hne.
    destruct (Qeq_bool wf_total_cap 0) eqn:E;
      [apply Qeq_bool_eq in E; contradiction |].
    cbn [returns returns2 mbind result_bind]. split; [| split].
    + field. exact Hne.
    + intros wf_cap wf_cap'. cbn. field. exact Hne.
    + intros wf_cap Hc Ht Hw Hle. cbn.
      assert (Hpos : 0 < wf_total_cap) by lra.
      assert (Hr0 : 0 <= wf_cap / wf_total_cap)
        by (apply Qle_shift_div_l; lra).
      assert (Hr1 : wf_cap / wf_total_cap <= 1)
        by (apply Qle_shift_div_r; lra).
      set (r := wf_cap / wf_total_cap) in *. clearbody r. split; nra.
Qed.

End WindFarmCost.

Section CostModelInstances.
Import CostModel.
Local Open Scope Q_scope.
Local Open Scope string_scope.

Lemma undiscounted_pos (y : Z) : discounting_pos (undiscounted y).
Proof. repeat split. Qed.

Example onss_cost_lin_undiscounted :
  onss_cost_lin undiscounted 2030 0 100 == -2.321305.
Proof. vm_compute. reflexivity. Qed.

Example ec1_ceil_undiscounted :
  returns (ec1_cost_fun undiscounted 2040 100 700 "ceil")
    (fun c => c == 551.6676).
Proof. vm_compute. reflexivity. Qed.

(** C1, the claim as stated fails: whatever the positive present-value
    weights, [onss_cost_lin] at capacity 0 and threshold 100 is below
    zero. *)
Lemma onss_cost_lin_negative_below_threshold :
  ~ (exists discount : Z -> discounting,
       (forall y, discounting_pos (discount y)) /\
       0 <= onss_cost_lin discount 2030 0 100).
Proof.
  intros (discount & Hpos & Hge).
  destruct (Hpos 2030%Z) as (He & _ & Ho & _).
  rewrite onss_cost_lin_linear in Hge. lra.
Qed.

(** For the energy hub the helpers are taken, by way of example, as a
    converter cost of 2 per MW, an equipment cost of 3 per MW plus 10 when
    active, and 5 for installation and for decommissioning: an active hub
    of capacity 0 then costs at least 10. *)
Lemma cost_nonneg_and_zero_at_zero_witness :
  sound_cost 0 (wf_cost_lin 900 300 0) /\
  sound_cost 120 (ec2_cost_fun undiscounted 2040 80 120 "ceil") /\
  sound_cost 0 (onc_cost_fun undiscounted 2040 80 0 "lin") /\
  (0 <= onss_cost_lin undiscounted 2040 500 200 <-> 200 <= 500) /\
  Extract.onss_record_cost undiscounted 2040 0 200 == 0 /\
  10 <= eh_cost_lin undiscounted WtCost.check_supp
          (fun _ _ _ eh_capacity eh_active =>
             (2 * eh_capacity, 3 * eh_capacity + 10 * eh_active))
          (fun _ _ _ => 5)
          2040 30 0 50 0 1.
Proof.
  destruct (cost_nonneg_and_zero_at_zero undiscounted undiscounted_pos 2040%Z)
    as (Hwf & Hcab & Honss & Hrec & Heh).
  split; [| split; [| split; [| split; [| split]]]].
  - apply Hwf; lra.
  - apply (Hcab 80 120 "ceil"); [now right | lra | lra].
  - apply (Hcab 80 0 "lin"); [now left | lra | lra].
  - apply (Honss 500 200).
  - apply (Hrec 0 200). lra.
  - destruct (Heh _ WtCost.check_supp
                (fun _ _ _ eh_capacity eh_active =>
                   (2 * eh_capacity, 3 * eh_capacity + 10 * eh_active))
                (fun _ _ _ => 5) 30 0%Z 50 0 1) as (_ & Hge & _);
      simpl; try lra.
    simpl in Hge. lra.
Defined.

Lemma ceil_cost_brackets_lin_cost_witness :
  returns (ec1_cost_fun undiscounted 2040 100 (348 * 0.95) "lin") (fun u =>
    returns2 (ec1_cost_fun undiscounted 2040 100 700 "lin")
             (ec1_cost_fun undiscounted 2040 100 700 "ceil")
             (fun l c => l <= c /\ c <= l + u)).
Proof.
  refine (proj1 (ceil_cost_brackets_lin_cost undiscounted 2040 100 700
                   (undiscounted_pos 2040) _)).
  discriminate.
Defined.

Lemma cable_cost_monotone_witness :
  returns2 (ec1_cost_fun undiscounted 2040 100 300 "ceil")
           (ec1_cost_fun undiscounted 2040 120 700 "ceil") Qle.
Proof.
  refine (proj1 (cable_cost_monotone undiscounted 2040 100 120 300 700 "ceil"
                   (undiscounted_pos 2040) _ _ _ _ _)).
  - now right.
  - discriminate.
  - discriminate.
  - discriminate.
  - discriminate.
Defined.

Lemma cable_cost_class_order_witness :
  returns2 (onc_cost_fun undiscounted 2040 100 700 "lin")
           (ec1_cost_fun undiscounted 2040 100 700 "lin") Qle.
Proof.
  refine (proj1 (cable_cost_class_order undiscounted 2040 100 700 "lin"
                   (undiscounted_pos 2040) _ _ _)).
  - now left.
  - discriminate.
  - discriminate.
Defined.

End CostModelInstances.

(** ** Export cables with the cable count in binary64 *)

Section Binary64Facts.
Import PrimFloat.
Import CostModel.
Local Open Scope Q_scope.
Local Open Scope string_scope.
#[local] Set Warnings "-inexact-float".

Variable discount : Z -> discounting.



End Binary64Facts.

Section Binary64Instances.
Import PrimFloat.
Import CostModel.
Local Open Scope Q_scope.
Local Open Scope string_scope.
#[local] Set Warnings "-inexact-float".


End Binary64Instances.

(** ** Support-structure selection *)

Section WtCostFacts.
Import WtCost.
Local Open Scope Q_scope.

Lemma check_supp_monopile (d : Q) : d < 25 -> check_supp d = Some monopile.
Proof.
  intros H. unfold check_supp.
  rewrite (bool_decide_eq_true_2 (d < 25)) by assumption. reflexivity.
Qed.

Lemma check_supp_jacket (d : Q) : 25 <= d -> d < 55 -> check_supp d = Some jacket.
Proof.
  intros H1 H2. unfold check_supp.
  rewrite (bool_decide_eq_false_2 (d < 25)) by lra.
  rewrite (bool_decide_eq_true_2 (25 <= d)) by assumption.
  rewrite (bool_decide_eq_true_2 (d < 55)) by assumption.
  reflexivity.
Qed.

Lemma check_supp_floating (d : Q) : 55 <= d -> check_supp d = Some floating.
Proof.
  intros H. unfold check_supp.
  rewrite (bool_decide_eq_false_2 (d < 25)) by lra.
  rewrite (bool_decide_eq_false_2 (d < 55)) by lra.
  rewrite andb_false_r.
  rewrite (bool_decide_eq_true_2 (55 <= d)) by assumption. reflexivity.
Qed.

Lemma check_supp_total (d : Q) : is_Some (check_supp d).
Proof.
  destruct (Qlt_le_dec d 25) as [H | H].
  - rewrite check_supp_monopile; eauto.
  - destruct (Qlt_le_dec d 55) as [H' | H'].
    + rewrite check_supp_jacket; eauto.
    + rewrite check_supp_floating; eauto.
Qed.

Lemma calc_equip_cost_row (first_year : Z) (d : Q) (s : support)
  (ice_cover : Z) (cap : Q) (row : Q * Q * Q) :
  (first_year, s, row) ∈
    [(2030%Z, monopile, (181, 552, 370)); (2030%Z, jacket, (103, -2043, 478));
     (2030%Z, floating, (0, 697, 1223));
     (2040%Z, monopile, (176, 536, 270)); (2040%Z, jacket, (100, -1986, 375));
     (2040%Z, floating, (0, 678, 1034));
     (2050%Z, monopile, (171, 521, 170)); (2050%Z, jacket, (97, -1930, 658));
     (2050%Z, floating, (0, 658, 844))] ->
  returns (calc_equip_cost first_year d (Some s) ice_cover cap)
    (fun c => c.1 == support_cost row d cap).
Proof.
  intros Hin.
  repeat (apply elem_of_cons in Hin as [Heq | Hin];
          [inversion Heq; subst; clear Heq; cbn -[Z.pow_pos];
           change 1e3 with 1000; change 1e-6 with (1 # 1000000); field |]).
  now apply elem_of_nil in Hin.
Qed.

(** C7. [check_supp] returns monopile below 25 m, jacket from 25 m up to
    but excluding 55 m, and floating from 55 m on (so at the boundary 55 m
    the result is floating); the structure so selected is a key of the
    coefficient set of each of the three reference years, and in each year
    the support cost is computed from that year's row of the selected
    structure: the monopile row below 25 m, the jacket row from 25 m to
    55 m, the floating row from 55 m on. *)
Theorem support_structure_selection (water_depth : Q) :
  (water_depth < 25 -> check_supp water_depth = Some monopile) /\
  (25 <= water_depth -> water_depth < 55 ->
   check_supp water_depth = Some jacket) /\
  (55 <= water_depth -> check_supp water_depth = Some floating) /\
  check_supp 55 = Some floating /\
  (forall (first_year ice_cover : Z) (turbine_capacity : Q),
     first_year ∈ [2030; 2040; 2050]%Z ->
     is_ok (calc_equip_cost first_year water_depth (check_supp water_depth)
              ice_cover turbine_capacity)) /\
  returns (calc_equip_cost 2030 55 (check_supp 55) 0 1)
    (fun c => c.1 == (0 * 55 ^ 2 + 697 * 55 + 1223 * 1000) / 1000000) /\
  returns (calc_equip_cost 2040 55 (check_supp 55) 0 1)
    (fun c => c.1 == (0 * 55 ^ 2 + 678 * 55 + 1034 * 1000) / 1000000) /\
  returns (calc_equip_cost 2050 55 (check_supp 55) 0 1)
    (fun c => c.1 == (0 * 55 ^ 2 + 658 * 55 + 844 * 1000) / 1000000) /\
  (forall (ice_cover : Z) (turbine_capacity : Q),
     let cost := fun first_year =>
       calc_equip_cost first_year water_depth (check_supp water_depth)
         ice_cover turbine_capacity in
     let row := fun r (c : Q * Q) =>
       c.1 == support_cost r water_depth turbine_capacity in
     (water_depth < 25 ->
      returns (cost 2030%Z) (row (181, 552, 370)) /\
      returns (cost 2040%Z) (row (176, 536, 270)) /\
      returns (cost 2050%Z) (row (171, 521, 170))) /\
     (25 <= water_depth -> water_depth < 55 ->
      returns (cost 2030%Z) (row (103, -2043, 478)) /\
      returns (cost 2040%Z) (row (100, -1986, 375)) /\
      returns (cost 2050%Z) (row (97, -1930, 658))) /\
     (55 <= water_depth ->
      returns (cost 2030%Z) (row (0, 697, 1223)) /\
      returns (cost 2040%Z) (row (0, 678, 1034)) /\
      returns (cost 2050%Z) (row (0, 658, 844)))) /\
  returns (calc_equip_cost 2030 10 (check_supp 10) 0 15)
    (fun c => c.1 == 5904300 # 1000000) /\
  returns (calc_equip_cost 2040 40 (check_supp 40) 0 15)
    (fun c => c.1 == 6833400 # 1000000).
Proof.
  split; [apply check_supp_monopile |].
  split; [apply check_supp_jacket |].
  split; [apply check_supp_floating |].
  split; [reflexivity |].
  split.
  { intros first_year ice_cover turbine_capacity Hy.
    destruct (check_supp_total water_depth) as [s ->].
    apply elem_of_cons in Hy as [-> | Hy]; [now destruct s |].
    apply elem_of_cons in Hy as [-> | Hy]; [now destruct s |].
    apply elem_of_cons in Hy as [-> | Hy]; [now destruct s |].
    now apply elem_of_nil in Hy. }
  split; [vm_compute; reflexivity |].
  split; [vm_compute; reflexivity |].
  split; [vm_compute; reflexivity |].
  split; [| split; vm_compute; reflexivity].
  intros ice_cover turbine_capacity cost row. subst cost row. cbv beta.
  split; [| split].
  - intros H. rewrite (check_supp_monopile _ H).
    repeat split; apply calc_equip_cost_row; repeat constructor.
  - intros H1 H2. rewrite (check_supp_jacket _ H1 H2).
    repeat split; apply calc_equip_cost_row; repeat constructor.
  - intros H. rewrite (check_supp_floating _ H).
    repeat split; apply calc_equip_cost_row; repeat constructor.
Qed.

Lemma py_div_ok (x y : Q) : ~ y == 0 -> py_div x y = Ok (x / y).
Proof.
  intros H. unfold py_div.
  destruct (Qeq_bool y 0) eqn:E; [| reflexivity].
  apply Qeq_bool_eq in E. contradiction.
Qed.

Lemma py_div_zero (x y : Q) : y == 0 -> py_div x y = Raise ZeroDivisionError.
Proof. intros H. unfold py_div. apply Qeq_bool_iff in H. now rewrite H. Qed.

Lemma Qdiv_nonzero (x y : Q) : ~ x == 0 -> ~ y == 0 -> ~ x / y == 0.
Proof.
  intros Hx Hy H. apply Hx.
  assert (E : x == x / y * y) by (field; exact Hy).
  rewrite E, H. ring.
Qed.

Lemma inst_deco_fixed (d pd tc : Q) (operation : string) :
  ~ tc == 0 -> d < 55 ->
  calc_inst_deco_cost d pd tc operation
  = Ok ((1 / (40 / tc) * (2 * (pd * 1e-3) / 18.5 + 24) + 144)
        * (200 * 1e3 / 24) * 1e-6).
Proof.
  intros Htc Hd. unfold calc_inst_deco_cost.
  rewrite (py_div_ok 40 tc Htc). cbn [mbind result_bind].
  assert (Hs : check_supp d = Some monopile \/ check_supp d = Some jacket).
  { destruct (Qlt_le_dec d 25);
      [left; now apply check_supp_monopile | right; now apply check_supp_jacket]. }
  assert (Hinv : py_div 1 (40 / tc) = Ok (1 / (40 / tc))).
  { apply py_div_ok. apply Qdiv_nonzero; [discriminate | exact Htc]. }
  destruct (String.eqb operation "inst"); destruct Hs as [-> | ->];
    cbv beta iota zeta; rewrite Hinv; reflexivity.
Qed.

Lemma inst_deco_floating (d pd tc : Q) (operation : string) :
  ~ tc == 0 -> 55 <= d ->
  calc_inst_deco_cost d pd tc operation
  = Ok ((0 + (1 / (1 / 3) * (2 * (pd * 1e-3) / 7.5 + 5) + 0) * (2.5 * 1e3 / 24)
           + (1 / 7 * (2 * (pd * 1e-3) / 18.5 + 30)
              + (if String.eqb operation "inst" then 90 else 30))
             * (40 * 1e3 / 24)) * 1e-6).
Proof.
  intros Htc Hd. unfold calc_inst_deco_cost.
  rewrite (py_div_ok 40 tc Htc). cbn [mbind result_bind].
  rewrite (check_supp_floating d Hd).
  destruct (String.eqb operation "inst"); reflexivity.
Qed.

(** X6. [calc_inst_deco_cost] raises [ZeroDivisionError] exactly when the
    turbine capacity is zero: at every depth, also at floating sites whose
    cost does not use the capacity, and for every operation. *)
Theorem inst_deco_cost_needs_capacity
  (water_depth port_distance turbine_capacity : Q) (operation : string) :
  (turbine_capacity == 0 ->
   calc_inst_deco_cost water_depth port_distance turbine_capacity operation
   = Raise ZeroDivisionError) /\
  (~ turbine_capacity == 0 ->
   is_ok (calc_inst_deco_cost water_depth port_distance turbine_capacity
            operation)).
Proof.
  split.
  - intros H. unfold calc_inst_deco_cost.
    now rewrite (py_div_zero 40 turbine_capacity H).
  - intros H. destruct (Qlt_le_dec water_depth 55) as [Hd | Hd].
    + now rewrite inst_deco_fixed.
    + now rewrite inst_deco_floating.
Qed.

(** X7. For a turbine of non-zero capacity: on a fixed-bottom site (depth
    below 55 m) installation and decommissioning cost the same, whatever
    the operation string; on a floating site installation costs exactly
    0.1 (million) more than any operation other than "inst", and the cost
    does not depend on the turbine capacity. *)
Theorem inst_versus_deco_cost
  (water_depth port_distance turbine_capacity : Q) (operation : string) :
  ~ turbine_capacity == 0 ->
  (water_depth < 55 ->
   returns2
     (calc_inst_deco_cost water_depth port_distance turbine_capacity "inst")
     (calc_inst_deco_cost water_depth port_distance turbine_capacity operation)
     (fun i x => x == i)) /\
  (55 <= water_depth -> operation <> "inst"%string ->
   returns2
     (calc_inst_deco_cost water_depth port_distance turbine_capacity "inst")
     (calc_inst_deco_cost water_depth port_distance turbine_capacity operation)
     (fun i x => i - x == 0.1)) /\
  (55 <= water_depth ->
   forall turbine_capacity' : Q, ~ turbine_capacity' == 0 ->
   returns2
     (calc_inst_deco_cost water_depth port_distance turbine_capacity operation)
     (calc_inst_deco_cost water_depth port_distance turbine_capacity' operation)
     (fun x x' => x' == x)).
Proof.
  intros Htc. split; [| split].
  - intros Hd. rewrite !inst_deco_fixed by assumption.
    cbn [returns returns2]. reflexivity.
  - intros Hd Hop. rewrite !inst_deco_floating by assumption.
    apply String.eqb_neq in Hop. rewrite Hop.
    cbn [returns returns2 String.eqb Ascii.eqb Bool.eqb].
    change 1e3 with 1000. change 1e-3 with (1 # 1000).
    change 1e-6 with (1 # 1000000). field.
  - intros Hd tc' Htc'. rewrite !inst_deco_floating by assumption.
    cbn [returns returns2]. reflexivity.
Qed.

Lemma calc_equip_cost_shape (first_year : Z) (d : Q) (s : support)
  (ice_cover : Z) (cap : Q) :
  first_year ∈ [2030; 2040; 2050]%Z ->
  exists c1 c2 c3 t : Q,
    (forall ice cap',
       calc_equip_cost first_year d (Some s) ice cap'
       = Ok (cap' * (c1 * d ^ 2 + c2 * d + c3 * 1e3) * 1e-6,
             cap' * (if (ice =? 1)%Z then t * (1 + 0.4 * 0.5714) else t)
             * 1e-6)).
Proof.
  intros Hy.
  apply elem_of_cons in Hy as [-> | Hy];
    [destruct s; do 4 eexists; intros; reflexivity |].
  apply elem_of_cons in Hy as [-> | Hy];
    [destruct s; do 4 eexists; intros; reflexivity |].
  apply elem_of_cons in Hy as [-> | Hy];
    [destruct s; do 4 eexists; intros; reflexivity |].
  now apply elem_of_nil in Hy.
Qed.

(** X8. [calc_equip_cost] raises [UnboundLocalError] for every reference
    year other than 2030, 2040 and 2050, whatever the other arguments; for
    those three years it raises [KeyError] when no support structure was
    selected and returns otherwise. *)
Theorem calc_equip_cost_errors
  (first_year : Z) (water_depth : Q) (support_structure : option support)
  (ice_cover : Z) (turbine_capacity : Q) :
  (first_year ∉ [2030; 2040; 2050]%Z ->
   calc_equip_cost first_year water_depth support_structure ice_cover
     turbine_capacity = Raise UnboundLocalError) /\
  (first_year ∈ [2030; 2040; 2050]%Z ->
   (support_structure = None ->
    calc_equip_cost first_year water_depth support_structure ice_cover
      turbine_capacity = Raise KeyError) /\
   (is_Some support_structure ->
    is_ok (calc_equip_cost first_year water_depth support_structure ice_cover
             turbine_capacity))).
Proof.
  split.
  - intros Hy. unfold calc_equip_cost.
    destruct (Z.eqb_spec first_year 2030) as [-> | H1];
      [exfalso; apply Hy; set_solver |].
    destruct (Z.eqb_spec first_year 2040) as [-> | H2];
      [exfalso; apply Hy; set_solver |].
    destruct (Z.eqb_spec first_year 2050) as [-> | H3];
      [exfalso; apply Hy; set_solver |].
    reflexivity.
  - intros Hy. split.
    + intros ->.
      apply elem_of_cons in Hy as [-> | Hy]; [reflexivity |].
      apply elem_of_cons in Hy as [-> | Hy]; [reflexivity |].
      apply elem_of_cons in Hy as [-> | Hy]; [reflexivity |].
      now apply elem_of_nil in Hy.
    + intros [s ->].
      destruct (calc_equip_cost_shape first_year water_depth s ice_cover
                  turbine_capacity Hy) as (c1 & c2 & c3 & t & H).
      now rewrite H.
Qed.

(** X9. For each of the three reference years and each support structure:
    ice cover ([ice_cover = 1]) multiplies the turbine cost by
    [1 + 0.4 * 0.5714] and leaves the support-structure cost unchanged,
    any other [ice_cover] value counts as no ice, and both costs scale
    with the turbine capacity. *)
Theorem ice_cover_scales_turbine_cost
  (first_year : Z) (water_depth : Q) (s : support) (ice_cover : Z)
  (turbine_capacity a : Q) :
  first_year ∈ [2030; 2040; 2050]%Z ->
  returns2
    (calc_equip_cost first_year water_depth (Some s) 0 turbine_capacity)
    (calc_equip_cost first_year water_depth (Some s) 1 turbine_capacity)
    (fun dry iced =>
       iced.1 == dry.1 /\ iced.2 == dry.2 * (1 + 0.4 * 0.5714)) /\
  (ice_cover <> 1%Z ->
   calc_equip_cost first_year water_depth (Some s) ice_cover turbine_capacity
   = calc_equip_cost first_year water_depth (Some s) 0 turbine_capacity) /\
  returns2
    (calc_equip_cost first_year water_depth (Some s) ice_cover turbine_capacity)
    (calc_equip_cost first_year water_depth (Some s) ice_cover
       (a * turbine_capacity))
    (fun c c' => c'.1 == a * c.1 /\ c'.2 == a * c.2).
Proof.
  intros Hy.
  destruct (calc_equip_cost_shape first_year water_depth s ice_cover
              turbine_capacity Hy) as (c1 & c2 & c3 & t & H).
  rewrite !H. cbn [returns returns2 fst snd Z.eqb Pos.eqb].
  split; [| split].
  - split; [reflexivity | ring].
  - intros Hi. apply Z.eqb_neq in Hi. now rewrite Hi.
  - split; ring.
Qed.

End WtCostFacts.

Section WtCostInstances.
Import WtCost.
Local Open Scope Q_scope.

Lemma inst_versus_deco_cost_witness :
  returns2 (calc_inst_deco_cost 60 50000 15 "inst")
           (calc_inst_deco_cost 60 50000 15 "deco")
           (fun i x => i - x == 0.1).
Proof.
  assert (H : ~ 15 == 0) by discriminate.
  refine (proj1 (proj2 (inst_versus_deco_cost 60 50000 15 "deco" H)) _ _).
  - discriminate.
  - discriminate.
Defined.

Lemma ice_cover_scales_turbine_cost_witness :
  returns2 (calc_equip_cost 2040 30 (Some jacket) 0 15)
           (calc_equip_cost 2040 30 (Some jacket) 1 15)
           (fun dry iced =>
              iced.1 == dry.1 /\ iced.2 == dry.2 * (1 + 0.4 * 0.5714)).
Proof.
  refine (proj1 (ice_cover_scales_turbine_cost 2040 30 jacket 1 15 2 _)).
  apply list_elem_of_further, list_elem_of_here.
Defined.

End WtCostInstances.

(** ** Energy-hub activation *)

Section BuilderFacts.
Import Builder.
Local Open Scope Q_scope.

Lemma zero_th_value : zero_th == 1 # 1000.
Proof. reflexivity. Qed.

(** C5. Under the hub constraints of the built model, for every viable
    hub: a capacity above the zero threshold forces the activation binary
    to 1, a binary at 0 keeps the capacity within the zero threshold, and
    the capacity never exceeds the hub capacity limit. *)
Theorem eh_activation_coupling
  (eh_cap_var eh_active_bin_var : Z -> Q) (viable_eh_ids : gset Z) :
  hub_constraints eh_cap_var eh_active_bin_var viable_eh_ids ->
  forall eh : Z, eh ∈ viable_eh_ids ->
    (zero_th < eh_cap_var eh -> eh_active_bin_var eh == 1) /\
    (eh_active_bin_var eh == 0 -> eh_cap_var eh <= zero_th) /\
    eh_cap_var eh <= eh_cap_lim.
Proof.
  intros Hc eh Hin.
  destruct (Hc eh Hin) as (_ & Hbin & Hmax & Hact).
  unfold max_eh_cap_rule, eh_active_rule, eh_cap_lim in *.
  split; [| split].
  - intros Hpos. destruct Hbin as [H0 | H1]; [| exact H1].
    rewrite H0 in Hact. lra.
  - intros H0. rewrite H0 in Hact. lra.
  - exact Hmax.
Qed.

Lemma eh_activation_coupling_witness :
  let cap := fun eh : Z => if (eh =? 7)%Z then 1200 else 0 in
  let act := fun eh : Z => if (eh =? 7)%Z then 1 else 0 in
  (zero_th < cap 7%Z -> act 7%Z == 1) /\
  (act 8%Z == 0 -> cap 8%Z <= zero_th) /\
  cap 7%Z <= eh_cap_lim.
Proof.
  intros cap act.
  assert (Hc : hub_constraints cap act {[7%Z; 8%Z]}).
  { intros eh Hin.
    assert (Heh : eh = 7%Z \/ eh = 8%Z) by set_solver.
    destruct Heh as [-> | ->]; vm_compute; intuition congruence. }
  destruct (eh_activation_coupling cap act {[7%Z; 8%Z]} Hc 7%Z) as (H1 & _ & H3);
    [set_solver |].
  destruct (eh_activation_coupling cap act {[7%Z; 8%Z]} Hc 8%Z) as (_ & H2 & _);
    [set_solver |].
  auto.
Defined.

End BuilderFacts.

(** ** Turbine-size snapping in result extraction *)

Section ExtractFacts.
Import Builder Extract.
Local Open Scope Q_scope.

Lemma nearest_wt_cap_multiple (c : Q) :
  nearest_wt_cap c = (Qceiling (c / 15) * 15)%Z.
Proof. reflexivity. Qed.

Lemma Qdiv_le_unshift (a b c : Q) : 0 < b -> a / b <= c -> a <= c * b.
Proof.
  intros Hb H.
  assert (Ha : a == a / b * b) by (field; lra).
  rewrite Ha. apply Qmult_le_compat_r; lra.
Qed.

Lemma nearest_wt_cap_ge (c : Q) : c <= inject_Z (nearest_wt_cap c).
Proof.
  rewrite nearest_wt_cap_multiple, inject_Z_mult.
  apply Qdiv_le_unshift; [reflexivity | apply Qle_ceiling].
Qed.

Lemma nearest_wt_cap_least (c : Q) (m : Z) :
  c <= inject_Z (m * 15) -> (nearest_wt_cap c <= m * 15)%Z.
Proof.
  intros H. rewrite nearest_wt_cap_multiple.
  apply Z.mul_le_mono_nonneg_r; [lia |].
  rewrite <- (Qceiling_Z m). apply Qceiling_resp_le.
  apply Qle_shift_div_r; [reflexivity |].
  now rewrite inject_Z_mult in H.
Qed.

Lemma nearest_wt_cap_nonneg (c : Q) : 0 <= c -> (0 <= nearest_wt_cap c)%Z.
Proof.
  intros H. rewrite nearest_wt_cap_multiple.
  apply Z.mul_nonneg_nonneg; [| lia].
  rewrite <- (Qceiling_Z 0). apply Qceiling_resp_le.
  change (inject_Z 0) with 0.
  apply Qle_shift_div_l; [reflexivity | lra].
Qed.

(** C6 (amended). With [linear_result = 0] the wind-farm capacity that is
    costed is [nearest_wt_cap c], and [nearest_wt_cap c] is [c] rounded up
    to a multiple of the 15 MW turbine size: a multiple of 15, at least
    [c], no larger than any other multiple of 15 that is at least [c], and
    non-negative when [c] is. *)
Theorem nearest_wt_cap_rounds_up (c : Q) :
  (exists m : Z, nearest_wt_cap c = (m * 15)%Z) /\
  c <= inject_Z (nearest_wt_cap c) /\
  (forall m : Z, c <= inject_Z (m * 15) -> (nearest_wt_cap c <= m * 15)%Z) /\
  (0 <= c -> (0 <= nearest_wt_cap c)%Z) /\
  (forall wf_capacity wf_cap wf_cost : Q,
     ~ wf_cap == 0 ->
     returns (wf_record_cost 0 wf_capacity c wf_cap wf_cost)
       (fun r => r.2 =
          sf_wf * rnd_f (inject_Z (nearest_wt_cap c) / wf_cap * wf_cost))).
Proof.
  split; [eexists; apply nearest_wt_cap_multiple |].
  split; [apply nearest_wt_cap_ge |].
  split; [apply nearest_wt_cap_least |].
  split; [apply nearest_wt_cap_nonneg |].
  intros wf_capacity wf_cap wf_cost Hne.
  unfold wf_record_cost, py_div.
  destruct (Qeq_bool wf_cap 0) eqn:E.
  - apply Qeq_bool_eq in E. contradiction.
  - reflexivity.
Qed.

(** C6, the claim as stated fails: for a solved capacity of 1 MW the
    costed capacity is 15 MW, while the multiple 0 is nearer. *)
Lemma nearest_wt_cap_not_nearest :
  nearest_wt_cap 1 = 15%Z /\
  Qabs (inject_Z (0 * 15) - 1) < Qabs (inject_Z (nearest_wt_cap 1) - 1).
Proof. split; reflexivity. Qed.

End ExtractFacts.

(** ** Geospatial feasibility filter *)

Section GeoFacts.
Import Geo.
Local Open Scope R_scope.

Lemma elem_of_keys {V : Type} (d : gmap Z V) (k : Z) :
  k ∈ keys d <-> is_Some (d !! k).
Proof.
  unfold keys. rewrite list_elem_of_fmap. split.
  - intros ([k' v] & -> & Hin). apply elem_of_map_to_list in Hin. eauto.
  - intros [v Hv]. exists (k, v). split; [reflexivity |].
    now apply elem_of_map_to_list.
Qed.

Lemma keep_pairs_spec (test : Z -> Z -> result bool) (P : Z -> Z -> Prop)
  (pairs : list (Z * Z)) :
  (forall a b, (a, b) ∈ pairs ->
     exists v : bool, test a b = Ok v /\ (v = true <-> P a b)) ->
  returns (keep_pairs test pairs)
    (fun l => forall a b, (a, b) ∈ l <-> (a, b) ∈ pairs /\ P a b).
Proof.
  induction pairs as [| [a0 b0] rest IH]; intros Htest; simpl.
  - intros a b. split; [intros H | intros [H _]]; now apply elem_of_nil in H.
  - destruct (Htest a0 b0) as (v & -> & Hv); [left |]. simpl.
    assert (IH' := IH (fun a b H => Htest a b (list_elem_of_further _ _ _ H))).
    destruct (keep_pairs test rest) as [l | e]; simpl in *; [| contradiction].
    intros a b. rewrite elem_of_cons.
    destruct v.
    + rewrite elem_of_cons, IH'. split.
      * intros [Heq | [Hin HP]]; [| tauto].
        inversion Heq; subst. split; [now left | now apply Hv].
      * intros [[Heq | Hin] HP]; [now left | right; tauto].
    + rewrite IH'. split.
      * intros [Hin HP]. tauto.
      * intros [[Heq | Hin] HP]; [| tauto].
        inversion Heq; subst. apply Hv in HP. discriminate.
Qed.

Lemma distance_test_spec (lon1 lat1 lon2 lat2 : gmap Z R) (threshold : R)
  (a b : Z) :
  covers lon1 lat1 -> covers lon2 lat2 ->
  is_Some (lon1 !! a) -> is_Some (lon2 !! b) ->
  exists v : bool,
    (x1 ← getitem lon1 a; y1 ← getitem lat1 a;
     x2 ← getitem lon2 b; y2 ← getitem lat2 b;
     let distance := haversine x1 y1 x2 y2 in
     Ok (bool_decide (distance <= threshold))) = Ok v /\
    (v = true <-> within lon1 lat1 lon2 lat2 threshold a b).
Proof.
  intros H1 H2 Ha Hb.
  destruct (H1 a Ha) as [y1 Hy1]. destruct (H2 b Hb) as [y2 Hy2].
  destruct Ha as [x1 Hx1]. destruct Hb as [x2 Hx2].
  exists (bool_decide (haversine x1 y1 x2 y2 <= threshold)).
  unfold getitem. rewrite Hx1, Hy1, Hx2, Hy2. split; [reflexivity |].
  rewrite bool_decide_eq_true. unfold within. split.
  - intros H. exists x1, y1, x2, y2. auto.
  - intros (x1' & y1' & x2' & y2' & E1 & E2 & E3 & E4 & H). congruence.
Qed.

Lemma within_is_Some (lon1 lat1 lon2 lat2 : gmap Z R) (threshold : R) (a b : Z) :
  within lon1 lat1 lon2 lat2 threshold a b ->
  (a, b) ∈ cprod (keys lon1) (keys lon2).
Proof.
  intros (x1 & y1 & x2 & y2 & E1 & _ & E3 & _).
  apply list_elem_of_cprod. simpl. rewrite !elem_of_keys. eauto.
Qed.

Lemma find_viable_spec (lon1 lat1 lon2 lat2 : gmap Z R) (threshold : R) :
  covers lon1 lat1 -> covers lon2 lat2 ->
  returns
    (keep_pairs
       (fun a b =>
          x1 ← getitem lon1 a; y1 ← getitem lat1 a;
          x2 ← getitem lon2 b; y2 ← getitem lat2 b;
          let distance := haversine x1 y1 x2 y2 in
          Ok (bool_decide (distance <= threshold)))
       (cprod (keys lon1) (keys lon2)))
    (fun l => forall a b, (a, b) ∈ l <-> within lon1 lat1 lon2 lat2 threshold a b).
Proof.
  intros H1 H2.
  pose proof (keep_pairs_spec
    (fun a b =>
       x1 ← getitem lon1 a; y1 ← getitem lat1 a;
       x2 ← getitem lon2 b; y2 ← getitem lat2 b;
       let distance := haversine x1 y1 x2 y2 in
       Ok (bool_decide (distance <= threshold)))
    (within lon1 lat1 lon2 lat2 threshold)
    (cprod (keys lon1) (keys lon2))) as Hk.
  match type of Hk with ?A -> _ => assert (HA : A) end.
  { intros a b Hin. apply list_elem_of_cprod in Hin as [Ha Hb]. simpl in *.
    apply elem_of_keys in Ha, Hb. now apply distance_test_spec. }
  specialize (Hk HA).
  destruct (keep_pairs _ _) as [l | e]; simpl in *; [| contradiction].
  intros a b. rewrite Hk. split; [tauto |].
  intros Hw. split; [now apply within_is_Some in Hw | exact Hw].
Qed.

Lemma find_viable_ec1_spec (wf_lon wf_lat eh_lon eh_lat : gmap Z R) :
  covers wf_lon wf_lat -> covers eh_lon eh_lat ->
  returns (find_viable_ec1 wf_lon wf_lat eh_lon eh_lat)
    (fun l => forall a b, (a, b) ∈ l <-> within wf_lon wf_lat eh_lon eh_lat 250 a b).
Proof. apply find_viable_spec. Qed.

Lemma find_viable_ec2_spec (eh_lon eh_lat onss_lon onss_lat : gmap Z R) :
  covers eh_lon eh_lat -> covers onss_lon onss_lat ->
  returns (find_viable_ec2 eh_lon eh_lat onss_lon onss_lat)
    (fun l => forall a b,
       (a, b) ∈ l <-> within eh_lon eh_lat onss_lon onss_lat 250 a b).
Proof. apply find_viable_spec. Qed.

Lemma find_viable_ec3_spec (wf_lon wf_lat onss_lon onss_lat : gmap Z R) :
  covers wf_lon wf_lat -> covers onss_lon onss_lat ->
  returns (find_viable_ec3 wf_lon wf_lat onss_lon onss_lat)
    (fun l => forall a b,
       (a, b) ∈ l <-> within wf_lon wf_lat onss_lon onss_lat 500 a b).
Proof. apply find_viable_spec. Qed.

Lemma find_viable_onc_spec (onss_lon onss_lat : gmap Z R) :
  covers onss_lon onss_lat ->
  returns (find_viable_onc onss_lon onss_lat)
    (fun l => forall a b,
       (a, b) ∈ l <->
       a ≠ b /\ within onss_lon onss_lat onss_lon onss_lat 250 a b).
Proof.
  intros Hc. unfold find_viable_onc.
  match goal with |- returns (keep_pairs ?t ?ps) _ =>
    pose proof (keep_pairs_spec t
      (fun a b => a ≠ b /\ within onss_lon onss_lat onss_lon onss_lat 250 a b)
      ps) as Hk
  end.
  match type of Hk with ?A -> _ => assert (HA : A) end.
  { intros a b Hin. apply list_elem_of_cprod in Hin as [Ha Hb]. simpl in *.
    apply elem_of_keys in Ha, Hb. cbv beta.
    destruct (decide (a = b)) as [Heq | Hne].
    - exists false. rewrite bool_decide_eq_false_2 by tauto.
      split; [reflexivity |]. split; [discriminate | tauto].
    - rewrite bool_decide_eq_true_2 by exact Hne. cbv iota.
      destruct (distance_test_spec onss_lon onss_lat onss_lon onss_lat 250 a b)
        as (v & Hrun & Hv); auto.
      exists v. split; [exact Hrun |]. rewrite Hv. tauto. }
  specialize (Hk HA).
  destruct (keep_pairs _ _) as [l | e]; simpl in *; [| contradiction].
  intros a b. rewrite Hk. split; [tauto |].
  intros [Hne Hw]. split; [now apply within_is_Some in Hw | tauto].
Qed.

Lemma haversine_same_point (lon lat : R) : haversine lon lat lon lat = 0.
Proof.
  unfold haversine. cbv zeta.
  replace (radians lon - radians lon) with 0 by ring.
  replace (radians lat - radians lat) with 0 by ring.
  replace (0 / 2) with 0 by field.
  rewrite sin_0.
  replace (0 ^ 2 + cos (radians lat) * cos (radians lat) * 0 ^ 2) with 0 by ring.
  rewrite sqrt_0, asin_0. ring.
Qed.

Lemma PI_bounds : 3 < PI <= 4.
Proof. pose proof PI2_3_2. pose proof PI_4. lra. Qed.

(** Along a meridian the distance is the arc: the difference of the
    latitudes in radians times the Earth radius. *)
Lemma haversine_meridian (lon lat1 lat2 : R) :
  0 <= lat2 - lat1 <= 180 ->
  haversine lon lat1 lon lat2 = 6371 * ((lat2 - lat1) * PI / 180).
Proof.
  intros Hd. pose proof PI_bounds as Hpi.
  unfold haversine, radians. cbv zeta.
  replace (lon * PI / 180 - lon * PI / 180) with 0 by ring.
  replace (0 / 2) with 0 by field.
  rewrite sin_0.
  set (x := (lat2 * PI / 180 - lat1 * PI / 180) / 2).
  replace (sin x ^ 2 + cos (lat1 * PI / 180) * cos (lat2 * PI / 180) * 0 ^ 2)
    with (sin x ^ 2) by ring.
  assert (Hx : x = (lat2 - lat1) * PI / 360) by (unfold x; field).
  assert (Hx0 : 0 <= x) by (rewrite Hx; nra).
  assert (Hx1 : x <= PI / 2) by (rewrite Hx; nra).
  rewrite sqrt_pow2 by (apply sin_ge_0; lra).
  rewrite asin_sin by lra.
  rewrite Hx. field.
Qed.

Lemma within_meridian (lon1 lat1 lon2 lat2 : gmap Z R) (threshold : R)
  (a b : Z) (x y1 y2 : R) :
  lon1 !! a = Some x -> lat1 !! a = Some y1 ->
  lon2 !! b = Some x -> lat2 !! b = Some y2 ->
  0 <= y2 - y1 <= 180 ->
  within lon1 lat1 lon2 lat2 threshold a b <->
  6371 * ((y2 - y1) * PI / 180) <= threshold.
Proof.
  intros E1 E2 E3 E4 Hd. rewrite <- (haversine_meridian x y1 y2 Hd).
  unfold within. split.
  - intros (x1 & y1' & x2 & y2' & F1 & F2 & F3 & F4 & H). congruence.
  - intros H. exists x, y1, x, y2. auto.
Qed.

(** C4. When every entity with a longitude has a latitude, each filter
    returns, and a pair is in the returned set exactly when both
    endpoints are entities of the class and their haversine distance
    (Earth radius 6371 km) is at most the threshold the code enforces
    (250 km for WF->EH, EH->ONSS and ONSS->ONSS, 500 km for WF->ONSS);
    the ONSS->ONSS class also leaves out pairs of equal identifiers.
    The distance is the haversine formula on the coordinates converted
    from degrees to radians; along a meridian it is 6371 km times the
    difference of the latitudes in radians, so that from (14 E, 55 N)
    the point one degree north is within 250 km, the point three degrees
    north is beyond 250 km and within 500 km, and the point five degrees
    north is beyond 500 km. *)
Theorem viable_iff_within_threshold
  (wf_lon wf_lat eh_lon eh_lat onss_lon onss_lat : gmap Z R) :
  covers wf_lon wf_lat -> covers eh_lon eh_lat -> covers onss_lon onss_lat ->
  returns (find_viable_ec1 wf_lon wf_lat eh_lon eh_lat)
    (fun l => forall a b,
       (a, b) ∈ l <-> within wf_lon wf_lat eh_lon eh_lat 250 a b) /\
  returns (find_viable_ec2 eh_lon eh_lat onss_lon onss_lat)
    (fun l => forall a b,
       (a, b) ∈ l <-> within eh_lon eh_lat onss_lon onss_lat 250 a b) /\
  returns (find_viable_ec3 wf_lon wf_lat onss_lon onss_lat)
    (fun l => forall a b,
       (a, b) ∈ l <-> within wf_lon wf_lat onss_lon onss_lat 500 a b) /\
  returns (find_viable_onc onss_lon onss_lat)
    (fun l => forall a b,
       (a, b) ∈ l <->
       a ≠ b /\ within onss_lon onss_lat onss_lon onss_lat 250 a b) /\
  (forall lon1 lat1 lon2 lat2 : R,
     haversine lon1 lat1 lon2 lat2 =
     2 * asin (sqrt (sin ((lat2 * PI / 180 - lat1 * PI / 180) / 2) ^ 2
                     + cos (lat1 * PI / 180) * cos (lat2 * PI / 180)
                       * sin ((lon2 * PI / 180 - lon1 * PI / 180) / 2) ^ 2))
     * 6371) /\
  (forall lon lat1 lat2 : R,
     0 <= lat2 - lat1 <= 180 ->
     haversine lon lat1 lon lat2 = 6371 * ((lat2 - lat1) * PI / 180)) /\
  0 < haversine 14 55 14 56 <= 250 /\
  250 < haversine 14 55 14 58 <= 500 /\
  500 < haversine 14 55 14 60.
Proof.
  intros Hwf Heh Honss.
  split; [now apply find_viable_ec1_spec |].
  split; [now apply find_viable_ec2_spec |].
  split; [now apply find_viable_ec3_spec |].
  split; [now apply find_viable_onc_spec |].
  split; [reflexivity |].
  split; [exact haversine_meridian |].
  pose proof PI_bounds as Hpi.
  rewrite !haversine_meridian by lra. lra.
Qed.

Lemma asin_nonneg (x : R) : 0 <= x -> 0 <= asin x.
Proof.
  intros Hx. pose proof PI_RGT_0 as Hpi. unfold asin.
  destruct (Rle_dec x (-1)) as [H1 | H1]; [lra |].
  destruct (Rle_dec 1 x) as [H2 | H2]; [lra |].
  destruct (Req_dec x 0) as [-> | Hne].
  - replace (0 / sqrt (1 - 0²)) with 0 by (unfold Rdiv; ring).
    rewrite atan_0. lra.
  - assert (Hs : 0 < sqrt (1 - x²)).
    { apply sqrt_lt_R0. unfold Rsqr. nra. }
    assert (Hq : 0 < x / sqrt (1 - x²)).
    { apply Rdiv_lt_0_compat; lra. }
    apply atan_increasing in Hq. rewrite atan_0 in Hq. lra.
Qed.

Lemma sin_sqr_half_sym (a b : R) : sin ((a - b) / 2) ^ 2 = sin ((b - a) / 2) ^ 2.
Proof.
  replace ((a - b) / 2) with (- ((b - a) / 2)) by field.
  rewrite sin_neg. ring.
Qed.

Lemma haversine_sym (lon1 lat1 lon2 lat2 : R) :
  haversine lon1 lat1 lon2 lat2 = haversine lon2 lat2 lon1 lat1.
Proof.
  unfold haversine. cbv zeta.
  rewrite (sin_sqr_half_sym (radians lat2) (radians lat1)).
  rewrite (sin_sqr_half_sym (radians lon2) (radians lon1)).
  rewrite (Rmult_comm (cos (radians lat1)) (cos (radians lat2))).
  reflexivity.
Qed.

(** X10. The haversine distance is symmetric in its two points, zero
    between a point and itself, never negative and never more than
    [PI * 6371] km. *)
Theorem haversine_metric_facts (lon1 lat1 lon2 lat2 : R) :
  haversine lon1 lat1 lon2 lat2 = haversine lon2 lat2 lon1 lat1 /\
  haversine lon1 lat1 lon1 lat1 = 0 /\
  0 <= haversine lon1 lat1 lon2 lat2 <= PI * 6371.
Proof.
  split; [apply haversine_sym |].
  split; [apply haversine_same_point |].
  unfold haversine. cbv zeta.
  match goal with |- context [asin ?x] =>
    pose proof (asin_nonneg x (sqrt_pos _)) as H0;
    pose proof (asin_bound x) as [_ H1];
    generalize dependent (asin x)
  end.
  intros s H0 H1. split; lra.
Qed.

Lemma within_sym (lon lat : gmap Z R) (threshold : R) (a b : Z) :
  within lon lat lon lat threshold a b -> within lon lat lon lat threshold b a.
Proof.
  intros (x1 & y1 & x2 & y2 & E1 & E2 & E3 & E4 & H).
  exists x2, y2, x1, y1. repeat split; try assumption.
  now rewrite haversine_sym.
Qed.

(** X11. With a latitude for every substation, the ONSS->ONSS viable set
    is symmetric and holds no pair of a substation with itself. *)
Theorem find_viable_onc_symmetric (onss_lon onss_lat : gmap Z R) :
  covers onss_lon onss_lat ->
  returns (find_viable_onc onss_lon onss_lat)
    (fun l => forall a b, (a, b) ∈ l -> (b, a) ∈ l /\ a ≠ b).
Proof.
  intros Hc. pose proof (find_viable_onc_spec onss_lon onss_lat Hc) as H.
  destruct (find_viable_onc onss_lon onss_lat) as [l | e]; simpl in *;
    [| exact H].
  intros a b Hin. apply H in Hin as [Hne Hw].
  split; [| exact Hne].
  apply H. split; [congruence | now apply within_sym].
Qed.

Lemma keep_pairs_ok (test : Z -> Z -> result bool) (pairs : list (Z * Z)) :
  is_ok (keep_pairs test pairs) ->
  forall a b, (a, b) ∈ pairs -> is_ok (test a b).
Proof.
  induction pairs as [| [a0 b0] rest IH]; simpl; intros Hok a b Hin.
  - now apply elem_of_nil in Hin.
  - destruct (test a0 b0) as [v |] eqn:E; simpl in Hok; [| contradiction].
    destruct (keep_pairs test rest) as [l |]; simpl in Hok; [| contradiction].
    apply elem_of_cons in Hin as [Heq | Hin].
    + inversion Heq; subst. now rewrite E.
    + now apply IH.
Qed.

Lemma keep_pairs_raises (test : Z -> Z -> result bool) (pairs : list (Z * Z))
  (e : exn) :
  (forall a b, is_ok (test a b) \/ test a b = Raise e) ->
  is_ok (keep_pairs test pairs) \/ keep_pairs test pairs = Raise e.
Proof.
  intros Htest. induction pairs as [| [a0 b0] rest IH]; simpl.
  - now left.
  - destruct (Htest a0 b0) as [Hok | ->]; [| now right].
    destruct (test a0 b0) as [v |]; simpl in *; [| contradiction].
    destruct IH as [Hk | ->]; [| now right].
    destruct (keep_pairs test rest); simpl in *; [now left | contradiction].
Qed.

Lemma getitem_cases {V : Type} (d : gmap Z V) (k : Z) :
  (exists v, d !! k = Some v /\ getitem d k = Ok v) \/
  (d !! k = None /\ getitem d k = Raise KeyError).
Proof.
  unfold getitem. destruct (d !! k) as [v |]; [left; eauto | now right].
Qed.

Lemma distance_test_cases (lon1 lat1 lon2 lat2 : gmap Z R) (threshold : R)
  (a b : Z) :
  let test :=
    x1 ← getitem lon1 a; y1 ← getitem lat1 a;
    x2 ← getitem lon2 b; y2 ← getitem lat2 b;
    let distance := haversine x1 y1 x2 y2 in
    Ok (bool_decide (distance <= threshold)) in
  (is_ok test /\ is_Some (lat1 !! a) /\ is_Some (lat2 !! b)) \/
  test = Raise KeyError.
Proof.
  cbv zeta.
  destruct (getitem_cases lon1 a) as [(x1 & _ & ->) | [_ ->]]; [| now right].
  destruct (getitem_cases lat1 a) as [(y1 & E1 & ->) | [_ ->]]; [| now right].
  destruct (getitem_cases lon2 b) as [(x2 & _ & ->) | [_ ->]]; [| now right].
  destruct (getitem_cases lat2 b) as [(y2 & E2 & ->) | [_ ->]]; [| now right].
  left. simpl. rewrite E1, E2. eauto.
Qed.

Lemma keys_empty_iff {V : Type} (d : gmap Z V) : keys d = [] <-> d = ∅.
Proof.
  unfold keys. split.
  - intros H. apply fmap_nil_inv in H. now apply map_to_list_empty_iff.
  - intros ->. now rewrite map_to_list_empty.
Qed.

Lemma cprod_nil_r {A B : Type} (l : list A) : cprod l ([] : list B) = [].
Proof. induction l as [| x l IH]; [reflexivity | exact IH]. Qed.

Lemma filter_key_safety (lon1 lat1 lon2 lat2 : gmap Z R) (threshold : R) :
  let run :=
    keep_pairs
      (fun a b =>
         x1 ← getitem lon1 a; y1 ← getitem lat1 a;
         x2 ← getitem lon2 b; y2 ← getitem lat2 b;
         let distance := haversine x1 y1 x2 y2 in
         Ok (bool_decide (distance <= threshold)))
      (cprod (keys lon1) (keys lon2)) in
  (is_ok run <-> key_safe lon1 lat1 lon2 lat2) /\
  (~ key_safe lon1 lat1 lon2 lat2 -> run = Raise KeyError) /\
  (lon1 = ∅ \/ lon2 = ∅ -> run = Ok []).
Proof.
  cbv zeta.
  assert (Hempty : lon1 = ∅ \/ lon2 = ∅ -> cprod (keys lon1) (keys lon2) = []).
  { intros [-> | ->].
    - now rewrite (proj2 (keys_empty_iff (∅ : gmap Z R)) eq_refl).
    - rewrite (proj2 (keys_empty_iff (∅ : gmap Z R)) eq_refl).
      apply cprod_nil_r. }
  assert (Hiff : is_ok
            (keep_pairs
               (fun a b =>
                  x1 ← getitem lon1 a; y1 ← getitem lat1 a;
                  x2 ← getitem lon2 b; y2 ← getitem lat2 b;
                  let distance := haversine x1 y1 x2 y2 in
                  Ok (bool_decide (distance <= threshold)))
               (cprod (keys lon1) (keys lon2)))
          <-> key_safe lon1 lat1 lon2 lat2).
  { split.
    - intros Hok.
      destruct (decide (lon1 = ∅)) as [E1 | N1]; [now left |].
      destruct (decide (lon2 = ∅)) as [E2 | N2]; [now right; left |].
      right; right.
      apply map_choose in N1 as (a0 & u0 & Ea0).
      apply map_choose in N2 as (b0 & v0 & Eb0).
      assert (Hpair : forall a b, is_Some (lon1 !! a) -> is_Some (lon2 !! b) ->
                is_Some (lat1 !! a) /\ is_Some (lat2 !! b)).
      { intros a b Ha Hb.
        assert (Hin : (a, b) ∈ cprod (keys lon1) (keys lon2)).
        { apply list_elem_of_cprod. simpl. now rewrite !elem_of_keys. }
        pose proof (keep_pairs_ok _ _ Hok a b Hin) as Ht.
        destruct (distance_test_cases lon1 lat1 lon2 lat2 threshold a b)
          as [(_ & H1 & H2) | Hr]; [auto |].
        cbv zeta in Hr. cbv beta zeta in Ht. rewrite Hr in Ht. contradiction. }
      split.
      + intros a Ha. apply (Hpair a b0); eauto.
      + intros b Hb. apply (Hpair a0 b); eauto.
    - intros [E | [E | [H1 H2]]].
      + rewrite Hempty by auto. exact I.
      + rewrite Hempty by auto. exact I.
      + pose proof (find_viable_spec lon1 lat1 lon2 lat2 threshold H1 H2) as Hs.
        destruct (keep_pairs _ _); [exact I | contradiction]. }
  split; [exact Hiff |]. split.
  - intros Hns.
    match goal with |- keep_pairs ?t ?ps = _ =>
      destruct (keep_pairs_raises t ps KeyError) as [Hok | Hr]
    end.
    + intros a b.
      destruct (distance_test_cases lon1 lat1 lon2 lat2 threshold a b)
        as [(Hok & _) | Hr]; [left; exact Hok | right; exact Hr].
    + apply Hiff in Hok. contradiction.
    + exact Hr.
  - intros E. now rewrite Hempty.
Qed.

(** X12. Each of the three export-class filters returns exactly when its
    lookups cannot fail: one of the two longitude dictionaries is empty
    (then the result is the empty list), or every identifier with a
    longitude has a latitude.  In every other case it raises
    [KeyError]. *)
Theorem find_viable_key_errors
  (wf_lon wf_lat eh_lon eh_lat onss_lon onss_lat : gmap Z R) :
  ((is_ok (find_viable_ec1 wf_lon wf_lat eh_lon eh_lat)
      <-> key_safe wf_lon wf_lat eh_lon eh_lat) /\
   (~ key_safe wf_lon wf_lat eh_lon eh_lat ->
    find_viable_ec1 wf_lon wf_lat eh_lon eh_lat = Raise KeyError) /\
   (wf_lon = ∅ \/ eh_lon = ∅ ->
    find_viable_ec1 wf_lon wf_lat eh_lon eh_lat = Ok [])) /\
  ((is_ok (find_viable_ec2 eh_lon eh_lat onss_lon onss_lat)
      <-> key_safe eh_lon eh_lat onss_lon onss_lat) /\
   (~ key_safe eh_lon eh_lat onss_lon onss_lat ->
    find_viable_ec2 eh_lon eh_lat onss_lon onss_lat = Raise KeyError) /\
   (eh_lon = ∅ \/ onss_lon = ∅ ->
    find_viable_ec2 eh_lon eh_lat onss_lon onss_lat = Ok [])) /\
  ((is_ok (find_viable_ec3 wf_lon wf_lat onss_lon onss_lat)
      <-> key_safe wf_lon wf_lat onss_lon onss_lat) /\
   (~ key_safe wf_lon wf_lat onss_lon onss_lat ->
    find_viable_ec3 wf_lon wf_lat onss_lon onss_lat = Raise KeyError) /\
   (wf_lon = ∅ \/ onss_lon = ∅ ->
    find_viable_ec3 wf_lon wf_lat onss_lon onss_lat = Ok [])).
Proof.
  split; [apply (filter_key_safety wf_lon wf_lat eh_lon eh_lat 250) |].
  split; [apply (filter_key_safety eh_lon eh_lat onss_lon onss_lat 250) |].
  apply (filter_key_safety wf_lon wf_lat onss_lon onss_lat 500).
Qed.

Lemma foldl_add_endpoints (l : list (Z * Z)) (s1 s2 : gset Z) :
  foldl (fun '(xs, ys) '(x, y) => (xs ∪ {[ x ]}, ys ∪ {[ y ]})) (s1, s2) l
  = (s1 ∪ list_to_set l.*1, s2 ∪ list_to_set l.*2).
Proof.
  revert s1 s2. induction l as [| [x y] l IH]; intros s1 s2; simpl.
  - now rewrite !union_empty_r_L.
  - rewrite IH. now rewrite <- !(assoc_L (∪)).
Qed.

Lemma elem_of_firsts (l : list (Z * Z)) (i : Z) :
  i ∈ (list_to_set l.*1 : gset Z) <-> exists j, (i, j) ∈ l.
Proof.
  rewrite elem_of_list_to_set, list_elem_of_fmap. split.
  - intros ([x y] & -> & Hin). eauto.
  - intros (j & Hin). exists (i, j). auto.
Qed.

Lemma elem_of_seconds (l : list (Z * Z)) (i : Z) :
  i ∈ (list_to_set l.*2 : gset Z) <-> exists j, (j, i) ∈ l.
Proof.
  rewrite elem_of_list_to_set, list_elem_of_fmap. split.
  - intros ([x y] & -> & Hin). eauto.
  - intros (j & Hin). exists (j, i). auto.
Qed.

Lemma get_viable_entities_eq (ec1 ec2 ec3 : list (Z * Z)) :
  get_viable_entities ec1 ec2 ec3
  = (list_to_set ec1.*1 ∪ list_to_set ec3.*1,
     list_to_set ec1.*2 ∪ list_to_set ec2.*1,
     list_to_set ec2.*2 ∪ list_to_set ec3.*2).
Proof.
  unfold get_viable_entities. cbv zeta.
  rewrite !foldl_add_endpoints. cbv beta iota.
  now rewrite !union_empty_l_L.
Qed.

(** X13. [get_viable_entities] returns exactly the endpoints of the
    connections it is given: a wind farm is viable when it starts a WF->EH
    or a WF->ONSS connection, a hub when it ends a WF->EH or starts an
    EH->ONSS connection, a substation when it ends an EH->ONSS or a
    WF->ONSS connection. *)
Theorem get_viable_entities_membership (ec1 ec2 ec3 : list (Z * Z)) (i : Z) :
  (i ∈ (get_viable_entities ec1 ec2 ec3).1.1
     <-> (exists j, (i, j) ∈ ec1) \/ (exists j, (i, j) ∈ ec3)) /\
  (i ∈ (get_viable_entities ec1 ec2 ec3).1.2
     <-> (exists j, (j, i) ∈ ec1) \/ (exists j, (i, j) ∈ ec2)) /\
  (i ∈ (get_viable_entities ec1 ec2 ec3).2
     <-> (exists j, (j, i) ∈ ec2) \/ (exists j, (j, i) ∈ ec3)).
Proof.
  rewrite get_viable_entities_eq. simpl.
  rewrite !elem_of_union, !elem_of_firsts, !elem_of_seconds. tauto.
Qed.

Lemma viable_connections_spec (cross_border : Z) (d : datasets) :
  covers (wf_lon d) (wf_lat d) -> covers (eh_lon d) (eh_lat d) ->
  covers (onss_lon d) (onss_lat d) ->
  returns (viable_connections cross_border d)
    (fun v =>
       (forall a b, (a, b) ∈ viable_ec1 v
          <-> within (wf_lon d) (wf_lat d) (eh_lon d) (eh_lat d) 250 a b) /\
       (forall a b, (a, b) ∈ viable_ec2 v
          <-> within (eh_lon d) (eh_lat d) (onss_lon d) (onss_lat d) 250 a b) /\
       (forall a b, (a, b) ∈ viable_ec3 v
          <-> within (wf_lon d) (wf_lat d) (onss_lon d) (onss_lat d) 500 a b) /\
       (forall a b, (a, b) ∈ viable_onc v
          <-> a ≠ b /\
              within (onss_lon d) (onss_lat d) (onss_lon d) (onss_lat d) 250 a b)).
Proof.
  intros Hwf Heh Honss. unfold viable_connections.
  pose proof (find_viable_ec1_spec _ _ _ _ Hwf Heh) as H1.
  pose proof (find_viable_ec2_spec _ _ _ _ Heh Honss) as H2.
  pose proof (find_viable_ec3_spec _ _ _ _ Hwf Honss) as H3.
  pose proof (find_viable_onc_spec _ _ Honss) as H4.
  destruct (find_viable_ec1 _ _ _ _) as [l1 | e]; simpl in *; [| exact H1].
  destruct (find_viable_ec2 _ _ _ _) as [l2 | e]; simpl in *; [| exact H2].
  destruct (find_viable_ec3 _ _ _ _) as [l3 | e]; simpl in *; [| exact H3].
  destruct (find_viable_onc _ _) as [l4 | e]; simpl in *; [| exact H4].
  auto.
Qed.

(** X14. In [opt_model], with a latitude for every entity, the viable
    entity sets are decided by distance alone, whatever [cross_border]
    is: a wind farm is viable exactly when some hub lies within 250 km or
    some substation within 500 km, a hub when some wind farm or some
    substation lies within 250 km, a substation when some hub lies within
    250 km or some wind farm within 500 km.  A substation whose only
    viable connections are to peer substations is not viable. *)
Theorem viable_entities_by_distance (cross_border : Z) (d : datasets) :
  covers (wf_lon d) (wf_lat d) -> covers (eh_lon d) (eh_lat d) ->
  covers (onss_lon d) (onss_lat d) ->
  returns (viable_connections cross_border d)
    (fun v => forall i : Z,
       (i ∈ (viable_entities v).1.1
          <-> (exists j, within (wf_lon d) (wf_lat d) (eh_lon d) (eh_lat d) 250 i j)
              \/ (exists j, within (wf_lon d) (wf_lat d)
                              (onss_lon d) (onss_lat d) 500 i j)) /\
       (i ∈ (viable_entities v).1.2
          <-> (exists j, within (wf_lon d) (wf_lat d) (eh_lon d) (eh_lat d) 250 j i)
              \/ (exists j, within (eh_lon d) (eh_lat d)
                              (onss_lon d) (onss_lat d) 250 i j)) /\
       (i ∈ (viable_entities v).2
          <-> (exists j, within (eh_lon d) (eh_lat d)
                           (onss_lon d) (onss_lat d) 250 j i)
              \/ (exists j, within (wf_lon d) (wf_lat d)
                              (onss_lon d) (onss_lat d) 500 j i))).
Proof.
  intros Hwf Heh Honss.
  pose proof (viable_connections_spec cross_border d Hwf Heh Honss) as Hs.
  destruct (viable_connections cross_border d) as [v | e]; simpl in *;
    [| exact Hs].
  destruct Hs as (H1 & H2 & H3 & _). intros i.
  unfold viable_entities. rewrite get_viable_entities_eq. simpl.
  rewrite !elem_of_union, !elem_of_firsts, !elem_of_seconds.
  repeat split; intros [[j Hj] | [j Hj]];
    first [ left; exists j; apply H1; exact Hj
          | left; exists j; apply H2; exact Hj
          | right; exists j; apply H2; exact Hj
          | right; exists j; apply H3; exact Hj ].
Qed.

End GeoFacts.

Section GeoInstances.
Import Geo.
Local Open Scope R_scope.

Lemma covers_singleton (k : Z) (x y : R) : covers {[ k := x ]} {[ k := y ]}.
Proof.
  intros k' [v Hv]. apply lookup_singleton_Some in Hv as [-> _].
  rewrite lookup_singleton_eq. eauto.
Qed.

Lemma within_singleton (k1 k2 : Z) (x y threshold : R) :
  0 <= threshold ->
  within {[ k1 := x ]} {[ k1 := y ]} {[ k2 := x ]} {[ k2 := y ]} threshold k1 k2.
Proof.
  intros Ht. exists x, y, x, y. rewrite !lookup_singleton_eq.
  repeat split; try reflexivity. now rewrite haversine_same_point.
Qed.

Lemma covers_insert (lon lat : gmap Z R) (k : Z) (x y : R) :
  covers lon lat -> covers (<[ k := x ]> lon) (<[ k := y ]> lat).
Proof.
  intros Hc k' Hk. destruct (decide (k = k')) as [-> | Hne].
  - rewrite lookup_insert_eq. eauto.
  - rewrite lookup_insert_ne in Hk by exact Hne.
    rewrite lookup_insert_ne by exact Hne. now apply Hc.
Qed.

(** A wind farm at 55 N, hubs at 56 N and 59 N, substations at 57 N,
    58 N and 61 N, all on the meridian 14 E: about 111 km per degree. *)
Lemma viable_iff_within_threshold_witness :
  returns (find_viable_ec1 {[ 1%Z := 14 ]} {[ 1%Z := 55 ]}
             {[ 2%Z := 14; 3%Z := 14 ]} {[ 2%Z := 56; 3%Z := 59 ]})
    (fun l => (1%Z, 2%Z) ∈ l /\ ~ (1%Z, 3%Z) ∈ l) /\
  returns (find_viable_ec2 {[ 2%Z := 14; 3%Z := 14 ]} {[ 2%Z := 56; 3%Z := 59 ]}
             {[ 4%Z := 14; 5%Z := 14; 6%Z := 14 ]}
             {[ 4%Z := 57; 5%Z := 58; 6%Z := 61 ]})
    (fun l => (2%Z, 4%Z) ∈ l /\ ~ (2%Z, 6%Z) ∈ l) /\
  returns (find_viable_ec3 {[ 1%Z := 14 ]} {[ 1%Z := 55 ]}
             {[ 4%Z := 14; 5%Z := 14; 6%Z := 14 ]}
             {[ 4%Z := 57; 5%Z := 58; 6%Z := 61 ]})
    (fun l => (1%Z, 5%Z) ∈ l /\ ~ (1%Z, 6%Z) ∈ l) /\
  returns (find_viable_onc {[ 4%Z := 14; 5%Z := 14; 6%Z := 14 ]}
             {[ 4%Z := 57; 5%Z := 58; 6%Z := 61 ]})
    (fun l => (4%Z, 5%Z) ∈ l /\ ~ (4%Z, 6%Z) ∈ l /\ ~ (4%Z, 4%Z) ∈ l).
Proof.
  pose proof PI_bounds as Hpi.
  destruct (viable_iff_within_threshold
              {[ 1%Z := 14 ]} {[ 1%Z := 55 ]}
              {[ 2%Z := 14; 3%Z := 14 ]} {[ 2%Z := 56; 3%Z := 59 ]}
              {[ 4%Z := 14; 5%Z := 14; 6%Z := 14 ]}
              {[ 4%Z := 57; 5%Z := 58; 6%Z := 61 ]}
              (covers_singleton _ _ _)
              (covers_insert _ _ _ _ _ (covers_singleton _ _ _))
              (covers_insert _ _ _ _ _
                 (covers_insert _ _ _ _ _ (covers_singleton _ _ _))))
    as (H1 & H2 & H3 & H4 & _).
  split; [| split; [| split]].
  - destruct (find_viable_ec1 _ _ _ _) as [l | e]; simpl in *; [| exact H1].
    split.
    + apply H1. apply (within_meridian _ _ _ _ _ _ _ 14 55 56);
        try reflexivity; lra.
    + rewrite H1. rewrite (within_meridian _ _ _ _ _ _ _ 14 55 59);
        try reflexivity; lra.
  - destruct (find_viable_ec2 _ _ _ _) as [l | e]; simpl in *; [| exact H2].
    split.
    + apply H2. apply (within_meridian _ _ _ _ _ _ _ 14 56 57);
        try reflexivity; lra.
    + rewrite H2. rewrite (within_meridian _ _ _ _ _ _ _ 14 56 61);
        try reflexivity; lra.
  - destruct (find_viable_ec3 _ _ _ _) as [l | e]; simpl in *; [| exact H3].
    split.
    + apply H3. apply (within_meridian _ _ _ _ _ _ _ 14 55 58);
        try reflexivity; lra.
    + rewrite H3. rewrite (within_meridian _ _ _ _ _ _ _ 14 55 61);
        try reflexivity; lra.
  - destruct (find_viable_onc _ _) as [l | e]; simpl in *; [| exact H4].
    split; [| split].
    + apply H4. split; [discriminate |].
      apply (within_meridian _ _ _ _ _ _ _ 14 57 58); try reflexivity; lra.
    + rewrite H4. intros [_ Hw]. revert Hw.
      rewrite (within_meridian _ _ _ _ _ _ _ 14 57 61); try reflexivity; lra.
    + rewrite H4. intros [Hne _]. now apply Hne.
Defined.

(** C3, the code at a failing input: with cross-border pooling disabled
    the WF->EH viable set of [border_case] holds the pair (1, 2), whose
    wind farm is registered in country 1 and whose hub in country 2. *)
Lemma viable_set_crosses_border :
  returns (viable_connections 0 border_case)
    (fun v => (1%Z, 2%Z) ∈ viable_ec1 v) /\
  wf_iso border_case !! 1%Z = Some 1%Z /\
  eh_iso border_case !! 2%Z = Some 2%Z.
Proof.
  split; [| split; reflexivity].
  unfold viable_connections, border_case. simpl.
  pose proof (find_viable_ec1_spec
    {[ 1%Z := 14 ]} {[ 1%Z := 55 ]} {[ 2%Z := 14 ]} {[ 2%Z := 55 ]}
    (covers_singleton _ _ _) (covers_singleton _ _ _)) as H1.
  pose proof (find_viable_ec2_spec
    {[ 2%Z := 14 ]} {[ 2%Z := 55 ]} {[ 3%Z := 14 ]} {[ 3%Z := 55 ]}
    (covers_singleton _ _ _) (covers_singleton _ _ _)) as H2.
  pose proof (find_viable_ec3_spec
    {[ 1%Z := 14 ]} {[ 1%Z := 55 ]} {[ 3%Z := 14 ]} {[ 3%Z := 55 ]}
    (covers_singleton _ _ _) (covers_singleton _ _ _)) as H3.
  pose proof (find_viable_onc_spec {[ 3%Z := 14 ]} {[ 3%Z := 55 ]}
    (covers_singleton _ _ _)) as H4.
  destruct (find_viable_ec1 _ _ _ _) as [l1 | e]; simpl in *; [| exact H1].
  destruct (find_viable_ec2 _ _ _ _) as [l2 | e]; simpl in *; [| exact H2].
  destruct (find_viable_ec3 _ _ _ _) as [l3 | e]; simpl in *; [| exact H3].
  destruct (find_viable_onc _ _) as [l4 | e]; simpl in *; [| exact H4].
  apply H1. apply within_singleton. lra.
Qed.

(** Two substations one degree of latitude apart: each is a peer of the
    other. *)
Lemma find_viable_onc_symmetric_witness :
  returns (find_viable_onc {[ 4%Z := 14; 5%Z := 14 ]} {[ 4%Z := 57; 5%Z := 58 ]})
    (fun l => (4%Z, 5%Z) ∈ l /\ (5%Z, 4%Z) ∈ l).
Proof.
  pose proof PI_bounds as Hpi.
  pose proof (find_viable_onc_symmetric
                {[ 4%Z := 14; 5%Z := 14 ]} {[ 4%Z := 57; 5%Z := 58 ]}
                (covers_insert _ _ _ _ _ (covers_singleton _ _ _))) as Hsym.
  pose proof (find_viable_onc_spec
                {[ 4%Z := 14; 5%Z := 14 ]} {[ 4%Z := 57; 5%Z := 58 ]}
                (covers_insert _ _ _ _ _ (covers_singleton _ _ _))) as Hspec.
  destruct (find_viable_onc _ _) as [l | e]; simpl in *; [| exact Hspec].
  assert (Hin : (4%Z, 5%Z) ∈ l).
  { apply Hspec. split; [discriminate |].
    apply (within_meridian _ _ _ _ _ _ _ 14 57 58); try reflexivity; lra. }
  split; [exact Hin | exact (proj1 (Hsym _ _ Hin))].
Defined.

Lemma viable_entities_by_distance_witness :
  returns (viable_connections 0 border_case)
    (fun v => 1%Z ∈ (viable_entities v).1.1 /\ 2%Z ∈ (viable_entities v).1.2).
Proof.
  pose proof (viable_entities_by_distance 0 border_case
                (covers_singleton _ _ _) (covers_singleton _ _ _)
                (covers_singleton _ _ _)) as H.
  destruct (viable_connections 0 border_case) as [v | e]; simpl in *;
    [| exact H].
  split.
  - apply (H 1%Z). left. exists 2%Z. apply within_singleton. lra.
  - apply (H 2%Z). left. exists 1%Z. apply within_singleton. lra.
Defined.

End GeoInstances.

(** ** Stage loop: lower bounds across planning years *)


Section StageFacts.
Import Builder Stage.
Local Open Scope Q_scope.

Lemma realized_capacity_nonneg (v : Q) : (0 <= realized_capacity v)%Z.
Proof.
  unfold realized_capacity. case_bool_decide as H; [| lia].
  apply py_round_ge_int. change (inject_Z 0) with 0.
  unfold zero_th in H. change 1e-3 with (1 # 1000) in H. lra.
Qed.

Lemma realized_capacity_ge_int (n : Z) (v : Q) :
  inject_Z n <= v -> (n <= realized_capacity v)%Z.
Proof.
  intros H. unfold realized_capacity. case_bool_decide as Hv.
  - now apply py_round_ge_int.
  - destruct (Z_lt_le_dec n 1) as [Hlt | Hge]; [lia |].
    exfalso. apply Hv. apply zero_th_lt_int in Hge. lra.
Qed.

(** The bound one variable ends a solved stage with. *)
Lemma stage_bound (var : var_data) (z : Z) :
  (0 <= z)%Z -> lb var = inject_Z z -> lb var <= value var ->
  lb (if bool_decide
          (zero_th < inject_Z
             (default 0%Z
                (if bool_decide (zero_th < value var)
                 then Some (py_round (value var)) else None)))
      then setlb var
             (inject_Z
                (default 0%Z
                   (if bool_decide (zero_th < value var)
                    then Some (py_round (value var)) else None)))
      else var)
  = inject_Z (realized_capacity (value var)).
Proof.
  intros Hz Hlb Hle.
  assert (Hr : (z <= realized_capacity (value var))%Z).
  { apply realized_capacity_ge_int. now rewrite <- Hlb. }
  unfold realized_capacity in *.
  destruct (bool_decide (zero_th < value var)); simpl.
  - case_bool_decide as Hp; simpl; [reflexivity |].
    rewrite zero_th_lt_int in Hp.
    assert (Hnn : (0 <= py_round (value var))%Z).
    { apply Z.le_trans with z; assumption. }
    rewrite Hlb. f_equal. lia.
  - rewrite Hlb. f_equal. lia.
Qed.

Lemma lookup_enforce_record (m : model) (name : var_name) (idx : index) :
  enforce_increase_variables m (record_capacities m) name !! idx
  = (fun var =>
       if bool_decide
            (zero_th < inject_Z
               (default 0%Z
                  (if bool_decide (zero_th < value var)
                   then Some (py_round (value var)) else None)))
       then setlb var
              (inject_Z
                 (default 0%Z
                    (if bool_decide (zero_th < value var)
                     then Some (py_round (value var)) else None)))
       else var) <$> m name !! idx.
Proof.
  unfold enforce_increase_variables, record_capacities.
  rewrite map_lookup_imap, lookup_omap.
  destruct (m name !! idx) as [var |]; reflexivity.
Qed.

Lemma enforce_record_spec (m : model) (name : var_name) (idx : index)
  (var' : var_data) :
  integral m -> respects_bounds m ->
  enforce_increase_variables m (record_capacities m) name !! idx = Some var' ->
  exists var : var_data,
    m name !! idx = Some var /\ value var' = value var /\
    lb var' = inject_Z (realized_capacity (value var)).
Proof.
  intros Hint Hres. rewrite lookup_enforce_record.
  destruct (m name !! idx) as [var |] eqn:E; simpl; [| discriminate].
  intros [= <-]. exists var. split; [reflexivity |].
  destruct (Hint name idx var E) as (z & Hz & Hlb).
  split.
  - now destruct (bool_decide _).
  - apply (stage_bound var z Hz Hlb). now apply (Hres name idx).
Qed.

Lemma below_refl (m : model) : below m m.
Proof. intros name idx var H. exists var. split; [exact H | lra]. Qed.

Lemma below_trans (m1 m2 m3 : model) : below m1 m2 -> below m2 m3 -> below m1 m3.
Proof.
  intros H12 H23 name idx var3 H3.
  destruct (H23 name idx var3 H3) as (var2 & H2 & Hle2).
  destruct (H12 name idx var2 H2) as (var1 & H1 & Hle1).
  exists var1. split; [exact H1 | lra].
Qed.

Lemma fresh_integral (m : model) : fresh m -> integral m.
Proof.
  intros Hf name idx var H. exists 0%Z. split; [lia |].
  now rewrite (Hf name idx var H).
Qed.

Lemma enforce_record_integral (m : model) :
  integral m -> respects_bounds m ->
  integral (enforce_increase_variables m (record_capacities m)).
Proof.
  intros Hint Hres name idx var' H.
  destruct (enforce_record_spec m name idx var' Hint Hres H) as (var & _ & _ & Hlb).
  exists (realized_capacity (value var)).
  split; [apply realized_capacity_nonneg | exact Hlb].
Qed.

Lemma enforce_record_below (m : model) :
  integral m -> respects_bounds m ->
  below m (enforce_increase_variables m (record_capacities m)).
Proof.
  intros Hint Hres name idx var' H.
  destruct (enforce_record_spec m name idx var' Hint Hres H) as (var & E & _ & Hlb).
  exists var. split; [exact E |].
  destruct (Hint name idx var E) as (z & Hz & Hz').
  rewrite Hlb, Hz', <- Zle_Qle.
  apply realized_capacity_ge_int. rewrite <- Hz'. now apply (Hres name idx).
Qed.

Section Loop.

Variable solve : Z -> model -> SolverStatus * model.
Hypothesis solve_well_behaved : well_behaved solve.

Lemma solve_keeps (year : Z) (m m1 : model) (status : SolverStatus) :
  solve year m = (status, m1) -> integral m -> below m m1 /\ integral m1.
Proof.
  intros Hs Hint.
  destruct (solve_well_behaved year m status m1 Hs) as [Hkeep _].
  assert (Hsame : forall name idx var1, m1 name !! idx = Some var1 ->
            exists var, m name !! idx = Some var /\ lb var = lb var1).
  { intros name idx var1 H1. specialize (Hkeep name idx).
    rewrite H1 in Hkeep. simpl in Hkeep.
    destruct (m name !! idx) as [var |]; simpl in Hkeep; [| discriminate].
    exists var. split; [reflexivity | congruence]. }
  split.
  - intros name idx var1 H1.
    destruct (Hsame name idx var1 H1) as (var & E & Hlb).
    exists var. split; [exact E | rewrite Hlb; lra].
  - intros name idx var1 H1.
    destruct (Hsame name idx var1 H1) as (var & E & Hlb).
    destruct (Hint name idx var E) as (z & Hz & Hz').
    exists z. split; [exact Hz | congruence].
Qed.

(** What one pass of the loop does. *)
Lemma stage_loop_cons (year : Z) (rest : list Z) (m : model)
  (prev_capacity : capacities) :
  exists (r : stage_log) (prev' : capacities),
    stage_loop solve (year :: rest) m prev_capacity
    = r :: stage_loop solve rest (bounded r) prev' /\
    solve year m = (stage_status r, solved r) /\
    (stage_status r = ok ->
     bounded r = enforce_increase_variables (solved r)
                   (record_capacities (solved r))) /\
    (stage_status r <> ok -> bounded r = solved r).
Proof.
  simpl. destruct (solve year m) as [status m1].
  destruct status;
    [ exists {| stage_year := year; stage_status := ok; solved := m1;
                bounded := enforce_increase_variables m1 (record_capacities m1) |},
             (record_capacities m1)
    | exists {| stage_year := year; stage_status := warning; solved := m1;
                bounded := m1 |}, prev_capacity
    | exists {| stage_year := year; stage_status := error; solved := m1;
                bounded := m1 |}, prev_capacity
    | exists {| stage_year := year; stage_status := aborted; solved := m1;
                bounded := m1 |}, prev_capacity
    | exists {| stage_year := year; stage_status := unknown; solved := m1;
                bounded := m1 |}, prev_capacity ];
    simpl; repeat split; intros H; congruence.
Qed.

Lemma stage_keeps (year : Z) (m : model) (r : stage_log) :
  integral m ->
  solve year m = (stage_status r, solved r) ->
  (stage_status r = ok ->
   bounded r = enforce_increase_variables (solved r)
                 (record_capacities (solved r))) ->
  (stage_status r <> ok -> bounded r = solved r) ->
  below m (solved r) /\ integral (solved r) /\
  (stage_status r = ok -> respects_bounds (solved r)) /\
  below m (bounded r) /\ integral (bounded r).
Proof.
  intros Hint Hs Hok Hfail.
  destruct (solve_keeps _ _ _ _ Hs Hint) as [Hb Hi].
  destruct (solve_well_behaved _ _ _ _ Hs) as [_ Hres].
  split; [exact Hb |]. split; [exact Hi |]. split; [exact Hres |].
  destruct (decide (stage_status r = ok)) as [E | E].
  - rewrite (Hok E). split.
    + apply below_trans with (solved r); [exact Hb |].
      apply enforce_record_below; auto.
    + apply enforce_record_integral; auto.
  - rewrite (Hfail E). auto.
Qed.

Lemma stage_loop_inv (years : list Z) :
  forall (m : model) (prev_capacity : capacities) (k : nat) (r : stage_log),
    integral m ->
    stage_loop solve years m prev_capacity !! k = Some r ->
    below m (solved r) /\ integral (solved r) /\
    (stage_status r = ok -> respects_bounds (solved r)) /\
    (stage_status r = ok ->
     bounded r = enforce_increase_variables (solved r)
                   (record_capacities (solved r))).
Proof.
  induction years as [| year rest IH]; intros m prev_capacity k r Hint Hk.
  - discriminate.
  - destruct (stage_loop_cons year rest m prev_capacity)
      as (r0 & prev' & Heq & Hs & Hok & Hfail).
    rewrite Heq in Hk.
    destruct (stage_keeps year m r0 Hint Hs Hok Hfail)
      as (Hb & Hi & Hres & Hb' & Hi').
    destruct k as [| k]; simpl in Hk.
    + injection Hk as <-. auto.
    + destruct (IH _ _ _ _ Hi' Hk) as (Hbk & Hik & Hresk & Hokk).
      split; [now apply below_trans with (bounded r0) |]. auto.
Qed.

Lemma stage_loop_later (years : list Z) :
  forall (m : model) (prev_capacity : capacities) (j k : nat)
         (rj rk : stage_log),
    integral m -> (j < k)%nat ->
    stage_loop solve years m prev_capacity !! j = Some rj ->
    stage_loop solve years m prev_capacity !! k = Some rk ->
    below (bounded rj) (solved rk).
Proof.
  induction years as [| year rest IH];
    intros m prev_capacity j k rj rk Hint Hjk Hj Hk.
  - discriminate.
  - destruct (stage_loop_cons year rest m prev_capacity)
      as (r0 & prev' & Heq & Hs & Hok & Hfail).
    rewrite Heq in Hj, Hk.
    destruct (stage_keeps year m r0 Hint Hs Hok Hfail)
      as (_ & _ & _ & _ & Hi').
    destruct k as [| k]; [lia |]. simpl in Hk.
    destruct j as [| j]; simpl in Hj.
    + injection Hj as <-.
      now destruct (stage_loop_inv rest _ _ _ _ Hi' Hk) as (Hb & _).
    + apply (IH (bounded r0) prev' j k rj rk Hi'); [lia | exact Hj | exact Hk].
Qed.

End Loop.

End StageFacts.

Section StageClaims.
Import Builder Stage.
Local Open Scope Q_scope.

(** X23. In a multi-stage run with a solver that only assigns values and
    whose [ok] solutions are within the lower bounds, started from the
    model as built: after each successfully solved stage every capacity
    variable keeps its solved value and has as lower bound its realized
    capacity from that stage (the value rounded to an integer, zero at or
    below the zero threshold); hence at every later successfully solved
    stage its value is at least that realized capacity, and realized
    capacities never decrease. *)
Theorem lower_bounds_follow_realized_capacity
  (solve : Z -> model -> SolverStatus * model) (m0 : model) :
  well_behaved solve -> fresh m0 ->
  (forall (k : nat) (r : stage_log),
     solve_multi_stage solve m0 !! k = Some r -> stage_status r = ok ->
     forall name idx var, solved r name !! idx = Some var ->
       exists var', bounded r name !! idx = Some var' /\
         value var' = value var /\
         lb var' = inject_Z (realized_capacity (value var))) /\
  (forall (j k : nat) (rj rk : stage_log),
     (j < k)%nat ->
     solve_multi_stage solve m0 !! j = Some rj ->
     solve_multi_stage solve m0 !! k = Some rk ->
     stage_status rj = ok -> stage_status rk = ok ->
     forall name idx vj vk,
       solved rj name !! idx = Some vj -> solved rk name !! idx = Some vk ->
       inject_Z (realized_capacity (value vj)) <= value vk /\
       (realized_capacity (value vj) <= realized_capacity (value vk))%Z).
Proof.
  intros Hwb Hfresh. unfold solve_multi_stage. cbv zeta.
  set (years := [2030%Z; 2040%Z; 2050%Z]).
  set (prev0 := (fun name => (fun _ => 0%Z) <$> m0 name) : capacities).
  assert (Hint : integral m0) by now apply fresh_integral.
  assert (Hstage : forall k r,
            stage_loop solve years m0 prev0 !! k = Some r -> stage_status r = ok ->
            forall name idx var, solved r name !! idx = Some var ->
              exists var', bounded r name !! idx = Some var' /\
                value var' = value var /\
                lb var' = inject_Z (realized_capacity (value var))).
  { intros k r Hk Hok name idx var Hvar.
    destruct (stage_loop_inv solve Hwb years m0 prev0 k r Hint Hk)
      as (_ & Hi & Hres & Hb).
    rewrite (Hb Hok).
    pose proof (lookup_enforce_record (solved r) name idx) as Hl.
    rewrite Hvar in Hl. simpl in Hl.
    eexists. split; [exact Hl |].
    destruct (enforce_record_spec (solved r) name idx _ Hi (Hres Hok) Hl)
      as (var0 & E0 & Hv & Hlb).
    assert (var0 = var) by congruence. subst var0. auto. }
  split; [exact Hstage |].
  intros j k rj rk Hjk Hj Hk Hokj Hokk name idx vj vk Hvj Hvk.
  destruct (Hstage j rj Hj Hokj name idx vj Hvj) as (var' & Hb' & _ & Hlb').
  pose proof (stage_loop_later solve Hwb years m0 prev0 j k rj rk Hint Hjk Hj Hk)
    as Hbelow.
  destruct (Hbelow name idx vk Hvk) as (var'' & E'' & Hle).
  assert (var'' = var') by congruence. subst var''.
  destruct (stage_loop_inv solve Hwb years m0 prev0 k rk Hint Hk)
    as (_ & _ & Hres & _).
  specialize (Hres Hokk name idx vk Hvk).
  assert (Hge : inject_Z (realized_capacity (value vj)) <= value vk).
  { rewrite <- Hlb'. lra. }
  split; [exact Hge | now apply realized_capacity_ge_int].
Qed.

Lemma demand_solve_well_behaved : well_behaved demand_solve.
Proof.
  intros year m status m1 [= <- <-]. split.
  - intros name idx. rewrite lookup_fmap.
    now destruct (m name !! idx).
  - intros _ name idx var. rewrite lookup_fmap.
    destruct (m name !! idx) as [var0 |]; simpl; [| discriminate].
    intros [= <-]. simpl. apply Q.le_max_l.
Qed.

Lemma one_farm_fresh : fresh one_farm.
Proof.
  intros name idx var. destruct name; simpl;
    try (rewrite lookup_empty; discriminate).
  intros H. apply lookup_singleton_Some in H as [_ <-]. reflexivity.
Qed.

(** One wind farm solved at 100.4 and then at 100: its lower bound after
    the first stage is 100, and 100 is what the second stage is held to. *)
Lemma lower_bounds_follow_realized_capacity_witness :
  exists (r1 r2 : stage_log) (v1 v2 : var_data),
    solve_multi_stage demand_solve one_farm !! 0%nat = Some r1 /\
    solve_multi_stage demand_solve one_farm !! 1%nat = Some r2 /\
    solved r1 wf_cap_var !! Entity 1 = Some v1 /\
    solved r2 wf_cap_var !! Entity 1 = Some v2 /\
    realized_capacity (value v1) = 100%Z /\
    (exists b1 : var_data,
       bounded r1 wf_cap_var !! Entity 1 = Some b1 /\
       value b1 = value v1 /\
       lb b1 = inject_Z (realized_capacity (value v1))) /\
    inject_Z (realized_capacity (value v1)) <= value v2 /\
    (realized_capacity (value v1) <= realized_capacity (value v2))%Z.
Proof.
  destruct (lower_bounds_follow_realized_capacity demand_solve one_farm
              demand_solve_well_behaved one_farm_fresh) as [Hstage Hlater].
  do 4 eexists.
  split; [reflexivity |]. split; [reflexivity |].
  split; [vm_compute; reflexivity |]. split; [vm_compute; reflexivity |].
  split; [vm_compute; reflexivity |].
  split.
  - apply (Hstage 0%nat _ eq_refl eq_refl wf_cap_var (Entity 1)).
    vm_compute; reflexivity.
  - apply (Hlater 0%nat 1%nat _ _ (Nat.lt_0_succ 0) eq_refl eq_refl
             eq_refl eq_refl wf_cap_var (Entity 1));
      vm_compute; reflexivity.
Defined.

(** C2, the code at a failing input: one wind farm, and a solver whose
    solutions are within the bounds and give the farm 100.4 in 2030 and
    100 afterwards.  Both stages are solved; after the first the lower
    bound of the farm is 100, the rounded value, and the second stage
    leaves the farm at 100, below its value of the stage before. *)
Lemma solved_value_falls_after_rounding :
  well_behaved demand_solve /\ fresh one_farm /\
  exists (r1 r2 : stage_log) (v1 b1 v2 : var_data),
    solve_multi_stage demand_solve one_farm !! 0%nat = Some r1 /\
    solve_multi_stage demand_solve one_farm !! 1%nat = Some r2 /\
    stage_status r1 = ok /\ stage_status r2 = ok /\
    solved r1 wf_cap_var !! Entity 1 = Some v1 /\
    bounded r1 wf_cap_var !! Entity 1 = Some b1 /\
    solved r2 wf_cap_var !! Entity 1 = Some v2 /\
    value v1 == 100.4 /\ lb b1 == 100 /\ value v2 == 100 /\
    value v2 < value v1.
Proof.
  split; [exact demand_solve_well_behaved |].
  split; [exact one_farm_fresh |].
  do 5 eexists.
  split; [reflexivity |]. split; [reflexivity |].
  split; [reflexivity |]. split; [reflexivity |].
  split; [vm_compute; reflexivity |]. split; [vm_compute; reflexivity |].
  split; [vm_compute; reflexivity |]. split; [vm_compute; reflexivity |].
  split; [vm_compute; reflexivity |]. split; [vm_compute; reflexivity |].
  vm_compute; reflexivity.
Qed.

End StageClaims.

Section StageLaws.
Import Builder Stage.
Local Open Scope Q_scope.

Lemma py_round_near (x : Q) :
  x - (1 # 2) <= inject_Z (py_round x) /\ inject_Z (py_round x) <= x + (1 # 2).
Proof.
  pose proof (Qfloor_le x) as Hlo. pose proof (Qlt_floor x) as Hhi.
  rewrite inject_Z_plus in Hhi. change (inject_Z 1) with 1 in Hhi.
  unfold py_round. cbv zeta.
  destruct (Qcompare_spec (x - inject_Z (Qfloor x)) (1 # 2)) as [He | Hl | Hg].
  - destruct (Z.even (Qfloor x));
      rewrite ?inject_Z_plus; change (inject_Z 1) with 1; split; lra.
  - split; lra.
  - rewrite inject_Z_plus. change (inject_Z 1) with 1. split; lra.
Qed.

Lemma realized_capacity_near (v : Q) :
  v - (1 # 2) <= inject_Z (realized_capacity v).
Proof.
  unfold realized_capacity. case_bool_decide as H.
  - apply py_round_near.
  - change (inject_Z 0) with 0. unfold zero_th in H.
    change 1e-3 with (1 # 1000) in H. lra.
Qed.

Lemma later_stage_value
  (solve : Z -> model -> SolverStatus * model) (m0 : model)
  (j k : nat) (rj rk : stage_log) (name : var_name) (idx : index)
  (vj vk : var_data) :
  well_behaved solve -> fresh m0 -> (j < k)%nat ->
  solve_multi_stage solve m0 !! j = Some rj ->
  solve_multi_stage solve m0 !! k = Some rk ->
  stage_status rj = ok -> stage_status rk = ok ->
  solved rj name !! idx = Some vj -> solved rk name !! idx = Some vk ->
  inject_Z (realized_capacity (value vj)) <= value vk.
Proof.
  intros Hwb Hfresh Hjk Hj Hk Hokj Hokk Hvj Hvk.
  unfold solve_multi_stage in Hj, Hk. cbv zeta in Hj, Hk.
  assert (Hint : integral m0) by now apply fresh_integral.
  destruct (stage_loop_inv solve Hwb _ _ _ j rj Hint Hj) as (_ & Hij & Hrj & Hbj).
  destruct (stage_loop_inv solve Hwb _ _ _ k rk Hint Hk) as (_ & _ & Hrk & _).
  pose proof (stage_loop_later solve Hwb _ _ _ j k rj rk Hint Hjk Hj Hk) as Hb.
  destruct (Hb name idx vk Hvk) as (var' & E' & Hle).
  rewrite (Hbj Hokj) in E'.
  destruct (enforce_record_spec (solved rj) name idx var' Hij (Hrj Hokj) E')
    as (var & E & _ & Hlb).
  assert (var = vj) by congruence. subst var.
  specialize (Hrk Hokk name idx vk Hvk). rewrite <- Hlb. lra.
Qed.

(** X15. In a multi-stage run with a well-behaved solver on a model as
    built, a capacity never falls by more than 1/2 from one successfully
    solved stage to a later one. *)
Theorem solved_value_falls_at_most_half
  (solve : Z -> model -> SolverStatus * model) (m0 : model)
  (j k : nat) (rj rk : stage_log) (name : var_name) (idx : index)
  (vj vk : var_data) :
  well_behaved solve -> fresh m0 -> (j < k)%nat ->
  solve_multi_stage solve m0 !! j = Some rj ->
  solve_multi_stage solve m0 !! k = Some rk ->
  stage_status rj = ok -> stage_status rk = ok ->
  solved rj name !! idx = Some vj -> solved rk name !! idx = Some vk ->
  value vj - (1 # 2) <= value vk.
Proof.
  intros Hwb Hfresh Hjk Hj Hk Hokj Hokk Hvj Hvk.
  pose proof (later_stage_value solve m0 j k rj rk name idx vj vk
                Hwb Hfresh Hjk Hj Hk Hokj Hokk Hvj Hvk) as H.
  pose proof (realized_capacity_near (value vj)). lra.
Qed.

Lemma solve_multi_stage_unfold
  (solve : Z -> model -> SolverStatus * model) (m0 : model) :
  exists r1 r2 r3 : stage_log,
    solve_multi_stage solve m0 = [r1; r2; r3] /\
    stage_year r1 = 2030%Z /\ stage_year r2 = 2040%Z /\ stage_year r3 = 2050%Z /\
    solve 2030%Z m0 = (stage_status r1, solved r1) /\
    solve 2040%Z (bounded r1) = (stage_status r2, solved r2) /\
    solve 2050%Z (bounded r2) = (stage_status r3, solved r3) /\
    (forall r, r ∈ [r1; r2; r3] -> stage_status r <> ok -> bounded r = solved r).
Proof.
  unfold solve_multi_stage. cbv zeta.
  set (p0 := (fun name => (fun _ => 0%Z) <$> m0 name) : capacities).
  assert (Hstep : forall year rest m p,
            exists r p',
              stage_loop solve (year :: rest) m p
              = r :: stage_loop solve rest (bounded r) p' /\
              stage_year r = year /\
              solve year m = (stage_status r, solved r) /\
              (stage_status r <> ok -> bounded r = solved r)).
  { intros year rest m p. simpl. destruct (solve year m) as [status m1].
    destruct status;
      [ exists {| stage_year := year; stage_status := ok; solved := m1;
                  bounded := enforce_increase_variables m1 (record_capacities m1) |},
               (record_capacities m1)
      | exists {| stage_year := year; stage_status := warning; solved := m1;
                  bounded := m1 |}, p
      | exists {| stage_year := year; stage_status := error; solved := m1;
                  bounded := m1 |}, p
      | exists {| stage_year := year; stage_status := aborted; solved := m1;
                  bounded := m1 |}, p
      | exists {| stage_year := year; stage_status := unknown; solved := m1;
                  bounded := m1 |}, p ];
      simpl; repeat split; intros H; congruence. }
  destruct (Hstep 2030%Z [2040%Z; 2050%Z] m0 p0) as (r1 & p1 & E1 & Y1 & S1 & F1).
  destruct (Hstep 2040%Z [2050%Z] (bounded r1) p1) as (r2 & p2 & E2 & Y2 & S2 & F2).
  destruct (Hstep 2050%Z [] (bounded r2) p2) as (r3 & p3 & E3 & Y3 & S3 & F3).
  exists r1, r2, r3. rewrite E1, E2, E3. simpl.
  repeat split; try assumption.
  intros r Hin Hne.
  apply elem_of_cons in Hin as [-> | Hin]; [auto |].
  apply elem_of_cons in Hin as [-> | Hin]; [auto |].
  apply elem_of_cons in Hin as [-> | Hin]; [auto |].
  now apply elem_of_nil in Hin.
Qed.

(** X16. Whatever the solver reports, the multi-stage loop runs 2030,
    2040 and 2050 in this order, each stage on the model the previous one
    left: a stage that does not end [ok] stops nothing, it only skips the
    update of the lower bounds, which (with a solver that keeps the
    bounds) stay what they were before that stage. *)
Theorem failed_stage_does_not_stop_the_run
  (solve : Z -> model -> SolverStatus * model) (m0 : model) :
  stage_year <$> solve_multi_stage solve m0 = [2030; 2040; 2050]%Z /\
  (forall (k : nat) (r r' : stage_log),
     solve_multi_stage solve m0 !! k = Some r ->
     solve_multi_stage solve m0 !! S k = Some r' ->
     solve (stage_year r') (bounded r) = (stage_status r', solved r') /\
     (stage_status r' <> ok -> bounded r' = solved r') /\
     (well_behaved solve -> stage_status r' <> ok ->
      forall name idx,
        lb <$> (bounded r' name !! idx) = lb <$> (bounded r name !! idx))).
Proof.
  destruct (solve_multi_stage_unfold solve m0)
    as (r1 & r2 & r3 & -> & Y1 & Y2 & Y3 & S1 & S2 & S3 & F).
  split; [simpl; now rewrite Y1, Y2, Y3 |].
  intros k r r' Hk Hk'.
  assert (Hcase : (r = r1 /\ r' = r2) \/ (r = r2 /\ r' = r3)).
  { destruct k as [| [| [| k]]]; simpl in Hk, Hk'; try discriminate;
      injection Hk as <-; injection Hk' as <-; auto. }
  assert (Hrun : solve (stage_year r') (bounded r) = (stage_status r', solved r')).
  { destruct Hcase as [[-> ->] | [-> ->]]; [now rewrite Y2 | now rewrite Y3]. }
  assert (Hin : r' ∈ [r1; r2; r3]).
  { destruct Hcase as [[_ ->] | [_ ->]]; set_solver. }
  split; [exact Hrun |]. split; [now apply F |].
  intros Hwb Hne name idx. rewrite (F r' Hin Hne).
  now destruct (Hwb _ _ _ _ Hrun) as [Hkeep _].
Qed.

Lemma lookup_enforce (m : model) (prev_capacity : capacities)
  (name : var_name) (idx : index) :
  enforce_increase_variables m prev_capacity name !! idx
  = (fun var =>
       if bool_decide (1 <= default 0 (prev_capacity name !! idx))%Z
       then setlb var (inject_Z (default 0%Z (prev_capacity name !! idx)))
       else var) <$> m name !! idx.
Proof.
  unfold enforce_increase_variables. rewrite map_lookup_imap.
  destruct (m name !! idx) as [var |]; [| reflexivity]. simpl. f_equal.
  destruct (decide (1 <= default 0 (prev_capacity name !! idx))%Z) as [H | H].
  - rewrite (bool_decide_eq_true_2 _ H).
    now rewrite bool_decide_eq_true_2 by now apply zero_th_lt_int.
  - rewrite (bool_decide_eq_false_2 _ H).
    now rewrite bool_decide_eq_false_2 by now rewrite zero_th_lt_int.
Qed.

(** X17. [enforce_increase_variables] keeps every variable and its value;
    it replaces the lower bound by the recorded previous capacity exactly
    when that capacity is at least 1 (a capacity that rounded to 0, or a
    variable that was not recorded, leaves the bound alone); and applying
    it twice with the same record changes nothing more. *)
Theorem enforce_increase_variables_effect
  (m : model) (prev_capacity : capacities) (name : var_name) (idx : index) :
  (value <$> (enforce_increase_variables m prev_capacity name !! idx)
   = value <$> (m name !! idx)) /\
  (lb <$> (enforce_increase_variables m prev_capacity name !! idx)
   = (fun var =>
        if bool_decide (1 <= default 0 (prev_capacity name !! idx))%Z
        then inject_Z (default 0%Z (prev_capacity name !! idx))
        else lb var) <$> (m name !! idx)) /\
  (enforce_increase_variables
     (enforce_increase_variables m prev_capacity) prev_capacity name !! idx
   = enforce_increase_variables m prev_capacity name !! idx).
Proof.
  rewrite !lookup_enforce.
  destruct (m name !! idx) as [var |]; simpl; [| auto].
  destruct (bool_decide (1 <= default 0 (prev_capacity name !! idx))%Z);
    auto.
Qed.

End StageLaws.

Section RecordFacts.
Import Builder Extract Stage Records.
Local Open Scope Q_scope.

(** X18. In a multi-stage run the previous capacities are stored under
    the variable names, while [save_results] reads those of substations
    and peer cables under "onss_ids" and "onc_ids": for these two classes
    the increment that is costed is always the whole rounded capacity,
    whatever earlier stages built; for the five other classes it is the
    rounded capacity less the recorded previous one.  In a single-stage
    run the increment of every class is the whole rounded capacity. *)
Theorem onss_and_onc_increment_is_cumulative
  (prev_capacity : capacities) (idx : index) (var : var_data) :
  cap_diff (multi_stage_prev prev_capacity) onss_cap_var idx var
    = rnd_f (value var) - inject_Z 0 /\
  cap_diff (multi_stage_prev prev_capacity) onc_cap_var idx var
    = rnd_f (value var) - inject_Z 0 /\
  (forall name : var_name,
     name <> onss_cap_var -> name <> onc_cap_var ->
     cap_diff (multi_stage_prev prev_capacity) name idx var
     = rnd_f (value var)
       - inject_Z (default 0%Z (prev_capacity name !! idx))) /\
  (forall (m : model) (name : var_name),
     cap_diff (single_stage_prev m) name idx var
     = rnd_f (value var) - inject_Z 0).
Proof.
  split; [reflexivity |]. split; [reflexivity |]. split.
  - intros name H1 H2. destruct name; try contradiction; reflexivity.
  - intros m name. unfold cap_diff, single_stage_prev. cbv zeta.
    destruct name; simpl save_key;
      try (rewrite lookup_insert_ne by discriminate);
      try (rewrite lookup_insert_eq); try (rewrite lookup_insert_ne by discriminate);
      try (rewrite lookup_singleton_eq); try (rewrite lookup_singleton_ne by discriminate);
      simpl; rewrite ?lookup_fmap, ?lookup_empty;
      try reflexivity.
    + now destruct (m onss_cap_var !! idx).
    + now destruct (m onc_cap_var !! idx).
Qed.

End RecordFacts.

Section AllocationFacts.
Import Builder.
Local Open Scope Q_scope.

Lemma foldl_Qplus (a : Q) (l : list Q) : foldl Qplus a l == a + py_sum l.
Proof.
  unfold py_sum. revert a. induction l as [| y l IH]; intros a; simpl.
  - ring.
  - rewrite (IH (a + y)), (IH (0 + y)). ring.
Qed.

Lemma py_sum_cons (y : Q) (l : list Q) : py_sum (y :: l) == y + py_sum l.
Proof. unfold py_sum at 1. simpl. rewrite foldl_Qplus. ring. Qed.

Lemma py_sum_nonneg (l : list Q) : (forall y, y ∈ l -> 0 <= y) -> 0 <= py_sum l.
Proof.
  induction l as [| y l IH]; intros H.
  - unfold py_sum. simpl. lra.
  - rewrite py_sum_cons.
    assert (0 <= y) by (apply H; left).
    assert (0 <= py_sum l) by (apply IH; intros z Hz; apply H; now right).
    lra.
Qed.

Lemma py_sum_elem_le (l : list Q) (y : Q) :
  (forall z, z ∈ l -> 0 <= z) -> y ∈ l -> y <= py_sum l.
Proof.
  induction l as [| z l IH]; intros Hnn Hin.
  - now apply elem_of_nil in Hin.
  - rewrite py_sum_cons.
    assert (Hz : 0 <= z) by (apply Hnn; left).
    assert (Hl : forall w, w ∈ l -> 0 <= w) by (intros w Hw; apply Hnn; now right).
    apply elem_of_cons in Hin as [-> | Hin].
    + pose proof (py_sum_nonneg l Hl). lra.
    + specialize (IH Hl Hin). lra.
Qed.

Lemma py_sum_fmap_le {A : Type} (f g : A -> Q) (s : list A) :
  (forall i, i ∈ s -> f i <= g i) -> py_sum (f <$> s) <= py_sum (g <$> s).
Proof.
  induction s as [| i s IH]; intros H.
  - apply Qle_refl.
  - rewrite !fmap_cons, !py_sum_cons.
    assert (f i <= g i) by (apply H; left).
    assert (py_sum (f <$> s) <= py_sum (g <$> s))
      by (apply IH; intros j Hj; apply H; now right).
    lra.
Qed.

Lemma py_sum_fmap_tight {A : Type} (f g : A -> Q) (s : list A) :
  (forall i, i ∈ s -> f i <= g i) ->
  py_sum (g <$> s) <= py_sum (f <$> s) ->
  forall i, i ∈ s -> f i == g i.
Proof.
  induction s as [| j s IH]; intros Hle Hsum i Hin.
  - now apply elem_of_nil in Hin.
  - rewrite !fmap_cons, !py_sum_cons in Hsum.
    assert (Hj : f j <= g j) by (apply Hle; left).
    assert (Hs : forall k, k ∈ s -> f k <= g k)
      by (intros k Hk; apply Hle; now right).
    pose proof (py_sum_fmap_le f g s Hs) as Hs'.
    apply elem_of_cons in Hin as [-> | Hin].
    + lra.
    + apply IH; auto. lra.
Qed.

Lemma allocation_le_selected (model : wind_data) (x : allocation)
  (cross_border wf country : Z) :
  allocation_constraints model x cross_border ->
  wf ∈ viable_wf_ids model -> country ∈ country_ids model ->
  0 <= wf_country_alloc_var x wf country /\
  wf_country_alloc_var x wf country <= wf_cap_var x wf /\
  wf_cap_var x wf <= wf_cap model wf.
Proof.
  intros [Hwf _] Hin Hc.
  destruct (Hwf wf Hin) as (_ & Hnn & Halloc & Hcap).
  unfold wf_alloc_rule, wf_cap_rule, NonNegativeReals in *.
  split; [now apply Hnn |]. split; [| exact Hcap].
  rewrite <- Halloc. apply py_sum_elem_le.
  - intros z Hz. apply list_elem_of_fmap in Hz as (c & -> & Hc'). now apply Hnn.
  - apply list_elem_of_fmap. eauto.
Qed.

(** X19. Under the allocation constraints of the built model, what a
    viable wind farm allocates to any one country is non-negative, is at
    most its selected capacity, and that is at most its rated capacity. *)
Theorem allocation_within_rated_capacity (model : wind_data) (x : allocation)
  (cross_border wf country : Z) :
  allocation_constraints model x cross_border ->
  wf ∈ viable_wf_ids model -> country ∈ country_ids model ->
  0 <= wf_country_alloc_var x wf country /\
  wf_country_alloc_var x wf country <= wf_cap_var x wf /\
  wf_cap_var x wf <= wf_cap model wf.
Proof. apply allocation_le_selected. Qed.

(** X20. With cross-border pooling disabled, the country requirement can
    only be met out of the country's own viable wind farms: the required
    share of their rated capacity is at most that rated capacity (so a
    fraction above 1 with some capacity to share is infeasible), and a
    fraction of exactly 1 forces every viable wind farm of the country to
    its full rated capacity, all of it allocated to that country. *)
Theorem domestic_requirement_limits (model : wind_data) (x : allocation)
  (country : Z) :
  allocation_constraints model x 0 -> country ∈ country_ids model ->
  let own := filter (fun wf => wf_iso model wf = country) (viable_wf_ids model) in
  country_cf model country * py_sum (wf_cap model <$> own)
    <= py_sum (wf_cap model <$> own) /\
  (0 < py_sum (wf_cap model <$> own) -> country_cf model country <= 1) /\
  (country_cf model country == 1 ->
   forall wf, wf ∈ own ->
     wf_country_alloc_var x wf country == wf_cap model wf /\
     wf_cap_var x wf == wf_cap model wf).
Proof.
  intros Hc Hcountry own.
  assert (Hreq := proj2 Hc country Hcountry).
  unfold wf_country_cap_rule in Hreq. cbv zeta in Hreq. simpl in Hreq.
  fold own in Hreq.
  assert (Hown : forall wf, wf ∈ own -> wf ∈ viable_wf_ids model).
  { intros wf Hwf. unfold own in Hwf. now apply list_elem_of_filter in Hwf as [_ ?]. }
  assert (Hterm : forall wf, wf ∈ own ->
            wf_country_alloc_var x wf country <= wf_cap model wf).
  { intros wf Hwf.
    destruct (allocation_le_selected model x 0 wf country Hc (Hown wf Hwf) Hcountry)
      as (_ & H1 & H2). lra. }
  pose proof (py_sum_fmap_le _ _ own Hterm) as Hsum.
  split; [lra |]. split.
  - intros Hpos. nra.
  - intros Hone wf Hwf.
    assert (Htight : py_sum (wf_cap model <$> own)
                     <= py_sum ((fun wf => wf_country_alloc_var x wf country) <$> own)).
    { rewrite Hone in Hreq. lra. }
    pose proof (py_sum_fmap_tight _ _ own Hterm Htight wf Hwf) as Heq.
    cbv beta in Heq.
    destruct (allocation_le_selected model x 0 wf country Hc (Hown wf Hwf) Hcountry)
      as (_ & H1 & H2).
    split; [exact Heq | lra].
Qed.

End AllocationFacts.

Section StageInstances.
Import Builder Stage.
Local Open Scope Q_scope.

Lemma solved_value_falls_at_most_half_witness :
  exists v1 v2 : var_data,
    value v1 == 100.4 /\ value v2 == 100 /\ value v1 - (1 # 2) <= value v2.
Proof.
  eexists. eexists.
  split; [| split;
    [| refine (solved_value_falls_at_most_half demand_solve one_farm 0 1 _ _
                 Stage.wf_cap_var (Entity 1) _ _
                 demand_solve_well_behaved one_farm_fresh _
                 eq_refl eq_refl eq_refl eq_refl eq_refl eq_refl); lia]].
  - vm_compute. reflexivity.
  - vm_compute. reflexivity.
Defined.

End StageInstances.

Section AllocationInstances.
Import Builder.
Local Open Scope Q_scope.

Lemma built_in_full_feasible : allocation_constraints two_farms built_in_full 0.
Proof.
  split.
  - intros wf Hwf.
    assert (Hcase : wf = 1%Z \/ wf = 2%Z).
    { apply elem_of_cons in Hwf as [-> | Hwf]; [now left |].
      apply elem_of_cons in Hwf as [-> | Hwf]; [now right |].
      now apply elem_of_nil in Hwf. }
    destruct Hcase as [-> | ->].
    + split; [discriminate |]. split; [| split; [reflexivity | discriminate]].
      intros country _. unfold NonNegativeReals. simpl.
      destruct (country =? 1)%Z; discriminate.
    + split; [discriminate |]. split; [| split; [reflexivity | discriminate]].
      intros country _. unfold NonNegativeReals. simpl.
      destruct (country =? 1)%Z; discriminate.
  - intros country Hc.
    repeat (apply elem_of_cons in Hc as [-> | Hc]; [vm_compute; discriminate |]).
    now apply elem_of_nil in Hc.
Qed.

Lemma allocation_within_rated_capacity_witness :
  0 <= wf_country_alloc_var built_in_full 1 1 /\
  wf_country_alloc_var built_in_full 1 1 <= wf_cap_var built_in_full 1 /\
  wf_cap_var built_in_full 1 <= wf_cap two_farms 1.
Proof.
  refine (allocation_within_rated_capacity two_farms built_in_full 0 1 1
            built_in_full_feasible _ _).
  - apply list_elem_of_here.
  - apply list_elem_of_here.
Defined.

Lemma domestic_requirement_limits_witness :
  country_cf two_farms 1 <= 1 /\
  wf_cap_var built_in_full 2 == wf_cap two_farms 2.
Proof.
  destruct (domestic_requirement_limits two_farms built_in_full 1
              built_in_full_feasible (list_elem_of_here _ _))
    as (_ & Hcf & Hfull).
  split.
  - apply Hcf. vm_compute. reflexivity.
  - apply (Hfull (Qeq_refl _) 2%Z).
    apply list_elem_of_further, list_elem_of_here.
Defined.

End AllocationInstances.

Section RoutingFacts.
Import Builder Network.
Local Open Scope Q_scope.

Lemma py_sum_zero (l : list Q) : (forall y, y ∈ l -> y == 0) -> py_sum l == 0.
Proof.
  induction l as [| y l IH]; intros H.
  - reflexivity.
  - rewrite py_sum_cons, (H y) by left.
    rewrite IH by (intros z Hz; apply H; now right). ring.
Qed.

Lemma py_sum_no_match {A : Type} (f : A -> Q) (P : A -> Prop)
  `{forall i, Decision (P i)} (s : list A) :
  (forall i, i ∈ s -> ~ P i) -> py_sum (f <$> filter P s) == 0.
Proof.
  intros Hno. apply py_sum_zero. intros y Hy.
  apply list_elem_of_fmap in Hy as (i & -> & Hi).
  apply list_elem_of_filter in Hi as [HP Hi]. now destruct (Hno i Hi).
Qed.

Lemma py_sum_all_zero {A : Type} (f : A -> Q) (s : list A) :
  (forall i, i ∈ s -> f i == 0) -> py_sum (f <$> s) == 0.
Proof.
  intros H. apply py_sum_zero. intros y Hy.
  apply list_elem_of_fmap in Hy as (i & -> & Hi). now apply H.
Qed.

(** X21. Under the routing constraints, what a viable wind farm allocates
    to a country has to be carried by its connections to hubs and
    substations located in that country: with no such connection in the
    viable sets the allocation is 0; in the point-to-point topology
    ([model_type = 0]) it is bounded by the direct links alone, in the
    hub-and-spoke topology ([model_type = 1]) by the links to hubs
    alone. *)
Theorem allocation_needs_a_route (net : topology) (x : flows)
  (model_type wf country : Z) :
  routing_constraints net x model_type ->
  wf ∈ viable_wf_ids net -> country ∈ country_ids net ->
  ((forall eh, eh ∈ viable_eh_ids net ->
      ~ ((wf, eh) ∈ viable_ec1_ids net /\ eh_iso net eh = country)) ->
   (forall onss, onss ∈ viable_onss_ids net ->
      ~ ((wf, onss) ∈ viable_ec3_ids net /\ onss_iso net onss = country)) ->
   wf_country_alloc_var x wf country == 0) /\
  (model_type = 0%Z ->
   wf_country_alloc_var x wf country <= connect_to_onss net x wf country) /\
  (model_type = 1%Z ->
   wf_country_alloc_var x wf country <= connect_to_eh net x wf country).
Proof.
  intros (Hb & Hwf & _ & _ & _ & _) Hin Hc.
  destruct (Hwf wf country Hin Hc) as [Hnn Hrule].
  unfold NonNegativeReals, wf_connection_rule in *.
  split; [| split].
  - intros Hno1 Hno3.
    assert (H1 : connect_to_eh net x wf country == 0)
      by (unfold connect_to_eh; now apply py_sum_no_match).
    assert (H3 : connect_to_onss net x wf country == 0)
      by (unfold connect_to_onss; now apply py_sum_no_match).
    lra.
  - intros ->. destruct Hb as [Hb0 _].
    destruct (Hb0 eq_refl) as (_ & Hec1 & _).
    assert (H1 : connect_to_eh net x wf country == 0).
    { unfold connect_to_eh. apply py_sum_zero. intros y Hy.
      apply list_elem_of_fmap in Hy as (eh & -> & Heh).
      apply list_elem_of_filter in Heh as [[Hv _] _]. now apply Hec1. }
    lra.
  - intros ->. destruct Hb as [_ Hb1].
    assert (H3 : connect_to_onss net x wf country == 0).
    { unfold connect_to_onss. apply py_sum_zero. intros y Hy.
      apply list_elem_of_fmap in Hy as (onss & -> & Ho).
      apply list_elem_of_filter in Ho as [[Hv _] _]. now apply (Hb1 eq_refl). }
    lra.
Qed.

(** X22. Under the routing constraints a viable hub is sized for all it
    collects and sends at least its capacity on to substations of its own
    country; so a hub with no viable substation of its own country has
    capacity 0 and collects nothing from any wind farm. *)
Theorem hub_needs_a_domestic_substation (net : topology) (x : flows)
  (model_type eh : Z) :
  routing_constraints net x model_type -> eh ∈ viable_eh_ids net ->
  connect_from_wf net x eh <= eh_cap_var x eh /\
  eh_cap_var x eh <= eh_connect_to_onss net x eh /\
  ((forall onss, onss ∈ viable_onss_ids net ->
      ~ ((eh, onss) ∈ viable_ec2_ids net /\ onss_iso net onss = eh_iso net eh)) ->
   eh_cap_var x eh == 0 /\
   forall wf, wf ∈ viable_wf_ids net -> (wf, eh) ∈ viable_ec1_ids net ->
     ec1_cap_var x (wf, eh) == 0).
Proof.
  intros (_ & _ & Hec1 & _ & _ & Heh) Hin.
  destruct (Heh eh Hin) as (Hnn & Hcollect & Hsend).
  unfold NonNegativeReals, eh_cap_connect_rule, eh_to_onss_connection_rule in *.
  split; [exact Hcollect |]. split; [exact Hsend |].
  intros Hno.
  assert (H0 : eh_connect_to_onss net x eh == 0)
    by (unfold eh_connect_to_onss; cbv zeta; now apply py_sum_no_match).
  assert (Hcap : eh_cap_var x eh == 0) by lra.
  split; [exact Hcap |].
  intros wf Hwf Hv.
  assert (Hle : ec1_cap_var x (wf, eh) <= connect_from_wf net x eh).
  { unfold connect_from_wf. apply py_sum_elem_le.
    - intros z Hz. apply list_elem_of_fmap in Hz as (w & -> & Hw).
      apply list_elem_of_filter in Hw as [Hv' _]. now apply Hec1.
    - apply list_elem_of_fmap. exists wf. split; [reflexivity |].
      now apply list_elem_of_filter. }
  pose proof (Hec1 (wf, eh) Hv) as Hnn1. unfold NonNegativeReals in Hnn1. lra.
Qed.

End RoutingFacts.

Section RoutingInstances.
Import Builder Network.
Local Open Scope Q_scope.

Lemma over_the_hub_feasible : routing_constraints one_route over_the_hub 2.
Proof.
  split; [split; discriminate |].
  split.
  { intros wf country Hwf Hc.
    apply list_elem_of_singleton in Hwf as ->.
    apply elem_of_cons in Hc as [-> | Hc]; [split; vm_compute; discriminate |].
    apply list_elem_of_singleton in Hc as ->. split; vm_compute; discriminate. }
  split; [intros i _; discriminate |].
  split; [intros i _; discriminate |].
  split; [intros i _; discriminate |].
  intros eh Heh. apply list_elem_of_singleton in Heh as ->.
  repeat split; vm_compute; discriminate.
Qed.

Lemma allocation_needs_a_route_witness :
  wf_country_alloc_var over_the_hub 1 1 == 0.
Proof.
  refine (proj1 (allocation_needs_a_route one_route over_the_hub 2 1 1
                   over_the_hub_feasible _ _) _ _).
  - apply list_elem_of_here.
  - apply list_elem_of_here.
  - intros eh _ [_ H]. discriminate H.
  - intros onss _ [_ H]. discriminate H.
Defined.

Lemma hub_needs_a_domestic_substation_witness :
  connect_from_wf one_route over_the_hub 2 <= eh_cap_var over_the_hub 2 /\
  eh_cap_var over_the_hub 2 <= eh_connect_to_onss one_route over_the_hub 2.
Proof.
  destruct (hub_needs_a_domestic_substation one_route over_the_hub 2 2
              over_the_hub_feasible (list_elem_of_here _ _))
    as (H1 & H2 & _).
  exact (conj H1 H2).
Defined.

End RoutingInstances.
